(** * Latent-space face editing: boundary projection, interpolation and the
      GUI and command-line glue around them

    The development covers
    - the numerical core used by [encoder/InterFaceGAN/edit.py]
      ([project_boundary], [linear_interpolate]), over exact real numbers;
    - the class [FaceModifier] of [gui/face_modify.py], over a store of
      numpy arrays, so that aliasing and in-place mutation are visible;
    - the driver [main] of [encoder/InterFaceGAN/edit.py], over a trace of
      the files it writes and the messages it logs.

    The theorems about the numerical core are over real numbers.  Where
    the specification asks for exact equality of floating-point results,
    its formulas are also evaluated in binary64, with the primitive
    floating-point numbers. *)

From Stdlib Require Import Reals Lra ZArith Lia.
From Stdlib Require Import ClassicalEpsilon FunctionalExtensionality.
From Stdlib Require PrimFloat.
From HB Require Import structures.
From mathcomp Require Import boot ssralg matrix mxalgebra.

Set Implicit Arguments.
Unset Strict Implicit.
Unset Printing Implicit Defensive.

Import GRing.Theory.
Local Open Scope ring_scope.
Bind Scope ring_scope with R.

(* ===================================================================== *)
(** * The real numbers as a field for the matrix library                  *)
(* ===================================================================== *)

Module RealField.

Definition eqr (x y : R) : bool := if Req_dec_T x y then true else false.

Lemma eqrP : Equality.axiom eqr.
Proof. by move=> x y; rewrite /eqr; case: Req_dec_T => h; constructor. Qed.

HB.instance Definition _ := hasDecEq.Build R eqrP.

Definition pick_real (P : pred R) (_ : nat) : option R :=
  match excluded_middle_informative (exists x, P x) with
  | left ex => Some (proj1_sig (constructive_indefinite_description _ ex))
  | right _ => None
  end.

Lemma pick_real_correct (P : pred R) n x : pick_real P n = Some x -> P x.
Proof.
rewrite /pick_real; case: excluded_middle_informative => // ex [<-].
exact: (proj2_sig (constructive_indefinite_description _ ex)).
Qed.

Lemma pick_real_complete (P : pred R) :
  (exists x, P x) -> exists n, pick_real P n.
Proof.
by move=> ex; exists 0%N; rewrite /pick_real; case: excluded_middle_informative.
Qed.

Lemma pick_real_ext (P Q : pred R) : P =1 Q -> pick_real P =1 pick_real Q.
Proof. by move=> /functional_extensionality ->. Qed.

HB.instance Definition _ :=
  hasChoice.Build R pick_real_correct pick_real_complete pick_real_ext.

Lemma RplusA : associative Rplus.
Proof. by move=> x y z; rewrite Rplus_assoc. Qed.

Lemma RmultA : associative Rmult.
Proof. by move=> x y z; rewrite Rmult_assoc. Qed.

HB.instance Definition _ :=
  GRing.isZmodule.Build R RplusA Rplus_comm Rplus_0_l Rplus_opp_l.

Lemma R1_neq0 : R1 != 0 :> R.
Proof. by apply/eqP; exact: R1_neq_R0. Qed.

HB.instance Definition _ :=
  GRing.Zmodule_isComNzRing.Build R
    RmultA Rmult_comm Rmult_1_l Rmult_plus_distr_r R1_neq0.

Lemma RmultVf (x : R) : x != 0 -> Rinv x * x = 1.
Proof. by move=> /eqP x0; exact: Rinv_l. Qed.

HB.instance Definition _ := GRing.ComNzRing_isField.Build R RmultVf Rinv_0.

End RealField.
Import RealField.

(* ===================================================================== *)
(** * Errors and results of the numerical core (spec section 7)           *)
(* ===================================================================== *)

Inductive error : Type :=
  | SingularMatrix (degenerate : nat)
  | ShapeMismatch
  | InvalidRange.

Inductive result (T : Type) : Type :=
  | Ok (value : T)
  | Err (e : error).
Arguments Ok {T} value.
Arguments Err {T} e.

(* ===================================================================== *)
(** * BoundaryProjector                                                   *)
(* ===================================================================== *)

Section Projector.

(** Dimensionality of the latent space. *)
Variable D : nat.

Definition dot (u v : 'rV[R]_D) : R := (u *m v^T) 0 0.

Definition norm (u : 'rV[R]_D) : R := sqrt (dot u u).

Definition normalize (u : 'rV[R]_D) : 'rV[R]_D := (norm u)^-1 *: u.

(** The conditional boundaries as the rows of a matrix. *)
Definition rows (conds : seq 'rV[R]_D) : 'M[R]_(size conds, D) :=
  \matrix_(i < size conds) nth 0 conds i.

(** The matrix A of the spec: row 0 is the primary boundary. *)
Definition stack (primary : 'rV[R]_D) (conds : seq 'rV[R]_D)
  : 'M[R]_(1 + size conds, D) := col_mx primary (rows conds).

(** The Gram matrix of pairwise dot products of the rows. *)
Definition gram m (A : 'M[R]_(m, D)) : 'M[R]_m := A *m A^T.

(** The coefficient of conditional [i], read off row 0 of the inverse of
    the Gram matrix. *)
Definition coefficient n (Ginv : 'M[R]_(1 + n)) (i : 'I_n) : R :=
  - (Ginv 0 (rshift 1 i) / Ginv 0 0).

Definition new_boundary (primary : 'rV[R]_D) (conds : seq 'rV[R]_D)
    (Ginv : 'M[R]_(1 + size conds)) : 'rV[R]_D :=
  primary - \sum_(i < size conds) coefficient Ginv i *: nth 0 conds i.

(** The index named by a [SingularMatrix] error: the first conditional
    that, together with the primary boundary and the conditionals before
    it, has a singular Gram matrix. *)
Definition degenerate_index (primary : 'rV[R]_D) (conds : seq 'rV[R]_D)
  : nat :=
  find (fun k => gram (stack primary (take k.+1 conds)) \notin unitmx)
       (iota 0 (size conds)).

(** Modelled from the spec: [project_boundary] of
    [encoder/InterFaceGAN/utils/manipulator.py], the module [edit.py]
    imports it from, which is missing.  Section 4.1: stack the
    boundaries, form the Gram matrix, invert it or fail with
    [SingularMatrix], subtract from the primary boundary the combination
    of the conditionals that makes the result orthogonal to each of them,
    normalise.  With no conditional the primary boundary is normalised
    and no system is solved. *)
Definition project (primary : 'rV[R]_D) (conds : seq 'rV[R]_D)
  : result 'rV[R]_D :=
  if conds is [::] then Ok (normalize primary)
  else
    let G := gram (stack primary conds) in
    if G \in unitmx then
      Ok (normalize (new_boundary primary (invmx G)))
    else Err (SingularMatrix (degenerate_index primary conds)).

(** Linear independence of two boundaries. *)
Definition independent (B C : 'rV[R]_D) : Prop :=
  forall a b : R, a *: B + b *: C = 0 -> a = 0 /\ b = 0.

End Projector.

(* ===================================================================== *)
(** * LatentInterpolator                                                  *)
(* ===================================================================== *)

(** A vector is the sequence of its components; a latent code is a batch
    of vectors, its leading dimension being the batch. *)
Definition vec : Type := seq R.
Definition LatentCode : Type := seq vec.

(** Two trailing dimensions are compatible when they are equal or one of
    them is 1. *)
Definition broadcastable (m n : nat) : bool :=
  [|| m == n, m == 1%N | n == 1%N].

(** An axis of length one is repeated to the length of the other operand. *)
Definition stretch (n : nat) (x : vec) : vec :=
  if size x == 1%N then nseq n (head 0 x) else x.

Definition broadcast2 (op : R -> R -> R) (x y : vec) : vec :=
  [seq op p.1 p.2 | p <- zip (stretch (size y) x) (stretch (size x) y)].

Definition vadd : vec -> vec -> vec := broadcast2 +%R.

Definition vscale (d : R) (x : vec) : vec := [seq d * c | c <- x].

(** [code + d * boundary], the boundary being broadcast over the batch. *)
Definition shift (code : LatentCode) (boundary : vec) (d : R) : LatentCode :=
  [seq vadd row (vscale d boundary) | row <- code].

Definition distance (start stop : R) (steps k : Z) : R :=
  start + IZR k * (stop - start) / IZR (Z.max (steps - 1) 1).

Definition distances (start stop : R) (steps : Z) : seq R :=
  [seq distance start stop steps (Z.of_nat k) | k <- iota 0 (Z.to_nat steps)].

Definition compatible (code : LatentCode) (boundary : vec) : bool :=
  all (fun row : vec => broadcastable (size row) (size boundary)) code.

(** The trailing dimensions differ and are not broadcastable, for some
    vector of the batch. *)
Definition mismatched (code : LatentCode) (boundary : vec) : bool :=
  has (fun row : vec => [&& size row != size boundary, size row != 1%N
                          & size boundary != 1%N]) code.

(** Modelled from the spec: [linear_interpolate] of
    [encoder/InterFaceGAN/utils/manipulator.py], the module [edit.py]
    imports it from, which is missing.  Section 4.2: the
    distances are evenly spaced from [start] to [stop], element [k] of the
    output is [code + distances[k] * boundary]; [steps < 1] is an
    [InvalidRange], incompatible trailing dimensions a [ShapeMismatch].
    The distances are computed first, so of the two errors the range
    error is the one reported when both apply. *)
Definition interpolate (code : LatentCode) (boundary : vec)
    (start stop : R) (steps : Z) : result (seq LatentCode) :=
  if (steps <? 1)%Z then Err InvalidRange
  else if ~~ compatible code boundary then Err ShapeMismatch
  else Ok [seq shift code boundary d | d <- distances start stop steps].

(* ===================================================================== *)
(** * The formulas of the core in binary64                                *)
(* ===================================================================== *)

(** Section 3 of the specification has vectors of floating-point numbers.
    [PrimFloat.float] is binary64, every operation rounded to the
    nearest, ties to even. *)
Definition vec64 : Type := seq PrimFloat.float.
Definition LatentCode64 : Type := seq vec64.

(** An integer as a floating-point number; exact below 2^53. *)
Fixpoint float_of_pos (p : positive) : PrimFloat.float :=
  match p with
  | xH => PrimFloat.one
  | xO q => PrimFloat.mul PrimFloat.two (float_of_pos q)
  | xI q => PrimFloat.add (PrimFloat.mul PrimFloat.two (float_of_pos q))
                          PrimFloat.one
  end.

Definition float_of_Z (z : Z) : PrimFloat.float :=
  match z with
  | Z0 => PrimFloat.zero
  | Zpos p => float_of_pos p
  | Zneg p => PrimFloat.opp (float_of_pos p)
  end.

Definition stretch64 (n : nat) (x : vec64) : vec64 :=
  if size x == 1%N then nseq n (head PrimFloat.zero x) else x.

Definition vadd64 (x y : vec64) : vec64 :=
  [seq PrimFloat.add p.1 p.2
  | p <- zip (stretch64 (size y) x) (stretch64 (size x) y)].

Definition vscale64 (d : PrimFloat.float) (x : vec64) : vec64 :=
  [seq PrimFloat.mul d c | c <- x].

Definition shift64 (code : LatentCode64) (boundary : vec64)
    (d : PrimFloat.float) : LatentCode64 :=
  [seq vadd64 row (vscale64 d boundary) | row <- code].

Definition distance64 (start stop : PrimFloat.float) (steps k : Z)
  : PrimFloat.float :=
  PrimFloat.add start
    (PrimFloat.div (PrimFloat.mul (float_of_Z k) (PrimFloat.sub stop start))
                   (float_of_Z (Z.max (steps - 1) 1))).

Definition distances64 (start stop : PrimFloat.float) (steps : Z)
  : seq PrimFloat.float :=
  [seq distance64 start stop steps (Z.of_nat k)
  | k <- iota 0 (Z.to_nat steps)].

(** Modelled from the spec: [linear_interpolate], which is missing, as
    [interpolate] above, with the arithmetic of section 4.2 done in
    binary64 in the order the formulas are written. *)
Definition interpolate64 (code : LatentCode64) (boundary : vec64)
    (start stop : PrimFloat.float) (steps : Z) : result (seq LatentCode64) :=
  if (steps <? 1)%Z then Err InvalidRange
  else if ~~ all (fun row : vec64 => broadcastable (size row) (size boundary))
                 code
  then Err ShapeMismatch
  else Ok [seq shift64 code boundary d | d <- distances64 start stop steps].

Definition norm64 (v : vec64) : PrimFloat.float :=
  PrimFloat.sqrt (foldl PrimFloat.add PrimFloat.zero
                        [seq PrimFloat.mul c c | c <- v]).

(** Modelled from the spec: [project_boundary], which is missing, with
    no conditional boundaries, in binary64 (section 4.1: the result is
    simply [primary] normalized to unit length). *)
Definition normalize64 (v : vec64) : vec64 :=
  [seq PrimFloat.div c (norm64 v) | c <- v].

(** The binary64 numbers nearest to 0.3 and to 0.9. *)
Definition three_tenths : PrimFloat.float :=
  PrimFloat.div (float_of_Z 3) (float_of_Z 10).
Definition nine_tenths : PrimFloat.float :=
  PrimFloat.div (float_of_Z 9) (float_of_Z 10).

(* ===================================================================== *)
(** * Python computations: state and exceptions                           *)
(* ===================================================================== *)

(** The exceptions the embedded code can raise.  [CoreError] carries an
    error of the numerical core. *)
Inductive exn : Type :=
  | ValueError
  | IndexError
  | AttributeError
  | NotImplementedError
  | AssertionError
  | FileNotFoundError
  | EOFError
  | IsADirectoryError
  | CoreError (e : error).

Inductive outcome (A : Type) : Type :=
  | Return (a : A)
  | Raise (e : exn).
Arguments Return {A} a.
Arguments Raise {A} e.

(** A computation over a state of type [S]: the state reached is kept
    when an exception is raised, as it is in Python. *)
Definition py (S A : Type) : Type := S -> outcome A * S.

Definition ret {S A : Type} (a : A) : py S A := fun s => (Return a, s).

Definition raise {S A : Type} (e : exn) : py S A := fun s => (Raise e, s).

Definition bind {S A B : Type} (m : py S A) (k : A -> py S B) : py S B :=
  fun s =>
    match m s with
    | (Return a, s') => k a s'
    | (Raise e, s') => (Raise e, s')
    end.

Definition when {S : Type} (b : bool) (m : py S unit) : py S unit :=
  if b then m else ret tt.

Definition lift {S A : Type} (r : outcome A) : py S A := fun s => (r, s).

Declare Scope py_scope.
Delimit Scope py_scope with py.
Notation "x <- m ;; k" := (bind m (fun x => k))
  (at level 61, m at next level, right associativity) : py_scope.
Notation "m ;; k" := (bind m (fun _ => k))
  (at level 61, right associativity) : py_scope.
Local Open Scope py_scope.

(** A Python [for] loop threading an accumulator. *)
Fixpoint foldM {S A B : Type} (f : B -> A -> py S B) (b : B) (xs : seq A)
  : py S B :=
  match xs with
  | [::] => ret b
  | x :: xs' => b' <- f b x ;; foldM f b' xs'
  end.

(* ===================================================================== *)
(** * The store of arrays                                                 *)
(* ===================================================================== *)

(** A reference to an array is its position in the store.  Arrays are
    never freed; a new array is put at the end. *)
Definition loc : Type := nat.

Section Store.

Variable cell : Type.

Definition store : Type := seq cell.

Definition lookup (h : store) (l : loc) : option cell :=
  nth None [seq Some c | c <- h] l.

(** A reference that names no array behaves as an attribute that was
    never set. *)
Definition load (l : loc) : py store cell :=
  fun h => if lookup h l is Some v then (Return v, h)
           else (Raise AttributeError, h).

Definition alloc (v : cell) : py store loc :=
  fun h => (Return (size h), rcons h v).

(** [h'] keeps every array of [h], at the same reference and with the
    same contents. *)
Definition extends (h h' : store) : Prop := exists new, h' = h ++ new.

(** [l] names an array of [h'] that [h] did not have. *)
Definition fresh (h h' : store) (l : loc) : bool :=
  (size h <= l)%N && (l < size h')%N.

(** [m] only adds arrays to the store. *)
Definition allocating (A : Type) (m : py store A) : Prop :=
  forall h, extends h (m h).2.

End Store.

(* ===================================================================== *)
(** * gui/face_modify.py: class FaceModifier                              *)
(* ===================================================================== *)

(** The attributes of a [FaceModifier] object.  Each holds a reference to
    a numpy array; only [latent_code] is ever rebound. *)
Record FaceModifier : Type := mkFaceModifier {
  latent_code : loc;
  age_boundary : loc;
  pose_boundary : loc;
  gender_boundary : loc;
  smile_boundary : loc
}.

(** The object after [self.latent_code] was rebound to [code]. *)
Definition rebound (s : FaceModifier) (code : loc) : FaceModifier :=
  mkFaceModifier code (age_boundary s) (pose_boundary s)
                 (gender_boundary s) (smile_boundary s).

(** What [modify] hands back as the first component of its result: the
    whole output of [synthesize], or one element of it. *)
Inductive picture (image : Type) : Type :=
  | Images (batch : seq image)
  | Image (first : image).
Arguments Images {image} batch.
Arguments Image {image} first.

Section FaceModify.

(** numpy and the generator are outside the repository: arrays, offsets
    and images are any types, [np_add] yields [None] when its operands
    cannot be broadcast together (numpy raises [ValueError]),
    [easy_synthesize v] is [self.model.easy_synthesize(v,
    **self.kwargs)['image']]. *)
Variables (ndarray scalar image : Type).
Variable is_zero : scalar -> bool.
Variable np_multiply : ndarray -> scalar -> ndarray.
Variable np_add : ndarray -> ndarray -> option ndarray.
Variable easy_synthesize : ndarray -> seq image.

(** The arrays and the object. *)
Record world : Type := World { heap : store ndarray; self : FaceModifier }.

Definition on_heap {A : Type} (m : py (store ndarray) A) : py world A :=
  fun w => let: (r, h) := m (heap w) in (r, World h (self w)).

Definition getattr {A : Type} (field : FaceModifier -> A) : py world A :=
  fun w => (Return (field (self w)), w).

(** [np.multiply(a, x)]: a new array. *)
Definition multiply (a : loc) (x : scalar) : py (store ndarray) loc :=
  va <- load a ;; alloc (np_multiply va x).

(** [np.add(a, b)]: a new array, or [ValueError]. *)
Definition add (a b : loc) : py (store ndarray) loc :=
  va <- load a ;;
  vb <- load b ;;
  if np_add va vb is Some v then alloc v else raise ValueError.

(** [self.latent_code = latent_code] *)
Definition set_latent_code (code : loc) : py world unit :=
  fun w => (Return tt, World (heap w) (rebound (self w) code)).

(** [np.add(self.latent_code, np.multiply(boundary, offset))] *)
Definition modify_latent_code (boundary : loc) (offset : scalar)
  : py world loc :=
  code <- getattr latent_code ;;
  scaled <- on_heap (multiply boundary offset) ;;
  on_heap (add code scaled).

Definition synthesize : py world (seq image) :=
  code <- getattr latent_code ;;
  v <- on_heap (load code) ;;
  ret (easy_synthesize v).

Definition change_age (offset : scalar) : py world unit :=
  b <- getattr age_boundary ;;
  code <- modify_latent_code b offset ;;
  set_latent_code code.

Definition change_pose (offset : scalar) : py world unit :=
  b <- getattr pose_boundary ;;
  code <- modify_latent_code b offset ;;
  set_latent_code code.

Definition change_smile (offset : scalar) : py world unit :=
  b <- getattr smile_boundary ;;
  code <- modify_latent_code b offset ;;
  set_latent_code code.

Definition change_gender (offset : scalar) : py world unit :=
  b <- getattr gender_boundary ;;
  code <- modify_latent_code b offset ;;
  set_latent_code code.

(** [output[0]] *)
Definition getitem0 (output : seq image) : py world image :=
  if output is first :: _ then ret first else raise IndexError.

Definition modify (age_offset gender_offset pose_offset smile_offset : scalar)
  : py world (picture image * loc) :=
  if [&& is_zero age_offset, is_zero pose_offset, is_zero smile_offset
       & is_zero gender_offset]
  then
    output <- synthesize ;;
    code <- getattr latent_code ;;
    ret (Images output, code)
  else
    when (~~ is_zero age_offset) (change_age age_offset) ;;
    when (~~ is_zero pose_offset) (change_pose pose_offset) ;;
    when (~~ is_zero smile_offset) (change_pose smile_offset) ;;
    when (~~ is_zero gender_offset) (change_gender gender_offset) ;;
    output <- synthesize ;;
    first <- getitem0 output ;;
    code <- getattr latent_code ;;
    ret (Image first, code).

(** The world whose object has another smile boundary. *)
Definition with_smile (other : loc) (w : world) : world :=
  let s := self w in
  World (heap w)
        (mkFaceModifier (latent_code s) (age_boundary s) (pose_boundary s)
                        (gender_boundary s) other).

(** [m] does the same whatever the smile boundary is. *)
Definition blind (A : Type) (m : py world A) : Prop :=
  forall other w,
    m (with_smile other w) = let: (r, w') := m w in (r, with_smile other w').

(** Every attribute of the object names an array. *)
Definition bound (w : world) : bool :=
  all (fun l : loc => (l < size (heap w))%N)
      [:: latent_code (self w); age_boundary (self w);
          pose_boundary (self w); gender_boundary (self w);
          smile_boundary (self w)].

(** [m] only adds arrays to the store of the world. *)
Definition keeping (A : Type) (m : py world A) : Prop :=
  forall w, extends (heap w) (heap (m w).2).

End FaceModify.

(* ===================================================================== *)
(** * encoder/InterFaceGAN/edit.py: the driver                            *)
(* ===================================================================== *)

(** [MODEL_POOL[name]['gan_type']]: the two types the driver handles, and
    any other. *)
Inductive gan_type : Type := Pggan | Stylegan | OtherGan.

(** The messages the driver logs. *)
Inductive message : Type :=
  | InitializingGenerator
  | PreparingBoundary
  | PreparingConditionalBoundary1
  | PreparingConditionalBoundary2
  | PreparingLatentCodes
  | LoadLatentCodes
  | SampleLatentCodes
  | Editing (total_num : nat)
  | FinishedSample (sample_id : nat)
  | SuccessfullyEdited (total_num : nat).

(** The files the driver saves under [output_dir]. *)
Inductive saved : Type := BoundaryNpy | LatentCodesNpy.

Section EditDriver.

(** File paths, model names, latent-space names, arrays, images, offsets
    and generators are any types: the GAN, numpy, cv2 and the file system
    are outside the repository. *)
Variables (path name space ndarray image scalar generator : Type).

(** The [.npy] files on disk: [files p] is the array stored at [p], or
    [None] when [p] is not an existing file. *)
Variable files : path -> option ndarray.
Variable gan_type_of : name -> gan_type.
Variable PGGANGenerator : name -> generator.
Variable StyleGANGenerator : name -> generator.
Variable preprocess : generator -> ndarray -> option space -> ndarray.
Variable easy_sample : generator -> Z -> option space -> ndarray.
Variable get_batch_inputs : generator -> ndarray -> seq ndarray.
Variable easy_synthesize : generator -> ndarray -> option space -> seq image.
Variable shape0 : ndarray -> nat.
Variable slice1 : ndarray -> nat -> ndarray.
Variable project_boundary : ndarray -> seq ndarray -> outcome ndarray.
Variable linear_interpolate :
  ndarray -> ndarray -> scalar -> scalar -> Z -> outcome ndarray.

(** The parsed command line. *)
Record arguments : Type := mkArguments {
  model_name : name;
  output_dir : path;
  boundary_path : path;
  input_latent_codes_path : path;
  num : Z;
  latent_space_type : space;
  start_distance : scalar;
  end_distance : scalar;
  steps : Z;
  conditional_boundary1_path : path;
  conditional_boundary2_path : path
}.

(** What the driver does to the outside, oldest first. *)
Inductive event : Type :=
  | Log (m : message)
  | Save (file : saved) (array : ndarray)
  | ImWrite (sample_id interpolation_id : nat) (img : image).

Definition trace : Type := seq event.

Definition emit (e : event) : py trace unit :=
  fun t => (Return tt, rcons t e).

(** [os.path.isfile] *)
Definition isfile (p : path) : bool := isSome (files p).

(** [np.load]; a path that is not a file cannot be loaded. *)
Definition np_load (p : path) : py trace ndarray :=
  if files p is Some v then ret v else raise FileNotFoundError.

(** Lines 87 to 103: the boundary the edit moves along. *)
Definition prepare_boundary (args : arguments) : py trace ndarray :=
  emit (Log PreparingBoundary) ;;
  (if ~~ isfile (boundary_path args) then raise ValueError else ret tt) ;;
  boundary <- np_load (boundary_path args) ;;
  cond_boundaries <-
    (if isfile (conditional_boundary1_path args) then
       emit (Log PreparingConditionalBoundary1) ;;
       c <- np_load (conditional_boundary1_path args) ;;
       ret [:: c]
     else ret [::]) ;;
  cond_boundaries <-
    (if isfile (conditional_boundary2_path args) then
       emit (Log PreparingConditionalBoundary2) ;;
       c <- np_load (conditional_boundary2_path args) ;;
       ret (rcons cond_boundaries c)
     else ret cond_boundaries) ;;
  lift (project_boundary boundary cond_boundaries).

(** Lines 121 to 139: one sample. *)
Definition edit_sample (args : arguments) (model : generator)
    (kwargs : option space) (latent_codes boundary : ndarray)
    (sample_id : nat) : py trace unit :=
  interpolations <-
    lift (linear_interpolate (slice1 latent_codes sample_id) boundary
            (start_distance args) (end_distance args) (steps args)) ;;
  interpolation_id <-
    foldM (fun id interpolations_batch =>
             foldM (fun id img =>
                      emit (ImWrite sample_id id img) ;; ret id.+1)
                   id (easy_synthesize model interpolations_batch kwargs))
          0%N (get_batch_inputs model interpolations) ;;
  (if (Z.of_nat interpolation_id =? steps args)%Z then ret tt
   else raise AssertionError) ;;
  emit (Log (FinishedSample sample_id)).

Definition main (args : arguments) : py trace unit :=
  emit (Log InitializingGenerator) ;;
  mk <- (match gan_type_of (model_name args) with
         | Pggan => ret (PGGANGenerator (model_name args), None)
         | Stylegan => ret (StyleGANGenerator (model_name args),
                            Some (latent_space_type args))
         | OtherGan => raise NotImplementedError
         end) ;;
  let: (model, kwargs) := mk in
  boundary <- prepare_boundary args ;;
  emit (Save BoundaryNpy boundary) ;;
  emit (Log PreparingLatentCodes) ;;
  latent_codes <-
    (if isfile (input_latent_codes_path args) then
       emit (Log LoadLatentCodes) ;;
       loaded <- np_load (input_latent_codes_path args) ;;
       ret (preprocess model loaded kwargs)
     else
       emit (Log SampleLatentCodes) ;;
       ret (easy_sample model (num args) kwargs)) ;;
  emit (Save LatentCodesNpy latent_codes) ;;
  let total_num := shape0 latent_codes in
  emit (Log (Editing total_num)) ;;
  foldM (fun _ sample_id =>
           edit_sample args model kwargs latent_codes boundary sample_id)
        tt (iota 0 total_num) ;;
  emit (Log (SuccessfullyEdited total_num)).

(** The conditional boundaries whose files exist, in the order of the
    command line. *)
Definition existing_conditionals (args : arguments) : seq ndarray :=
  pmap files [:: conditional_boundary1_path args;
                 conditional_boundary2_path args].

(** An event that writes a file. *)
Definition writes (e : event) : bool :=
  match e with
  | Log _ => false
  | Save _ _ => true
  | ImWrite _ _ _ => true
  end.

(** The messages about the conditional boundaries: one for each that is
    an existing file, none for the others. *)
Definition conditional_messages (args : arguments) : trace :=
  (if isfile (conditional_boundary1_path args)
   then [:: Log PreparingConditionalBoundary1] else [::]) ++
  (if isfile (conditional_boundary2_path args)
   then [:: Log PreparingConditionalBoundary2] else [::]).

End EditDriver.

(* ===================================================================== *)
(** * Concrete inputs for the examples                                    *)
(* ===================================================================== *)

(** Two boundaries of a two-dimensional latent space, for the examples:
    the unit vectors of the axes. *)
Definition axis0 : 'rV[R]_2 := delta_mx 0 0.
Definition axis1 : 'rV[R]_2 := delta_mx 0 ord_max.

(** The zero code and the first axis of a three-dimensional latent space,
    and a boundary of another dimension. *)
Definition zero3 : LatentCode := [:: [:: 0; 0; 0]].
Definition unit3 : vec := [:: 1; 0; 0].
Definition pair2 : vec := [:: 1; 0].

(** A numpy of arrays of natural numbers, a generator that pictures a code
    as itself, and an object with its five arrays. *)
Definition nat_multiply (a : seq nat) (x : nat) : seq nat :=
  [seq (v * x)%N | v <- a].
Definition nat_add (a b : seq nat) : option (seq nat) :=
  Some [seq (p.1 + p.2)%N | p <- zip a b].
Definition nat_synthesize (v : seq nat) : seq (seq nat) := [:: v].
Definition nat_is_zero (x : nat) : bool := x == 0%N.
Definition studio : world (seq nat) :=
  World [:: [:: 1; 2]; [:: 10; 0]; [:: 0; 10]; [:: 5; 5]; [:: 7; 7]]%N
        (mkFaceModifier 0 1 2 3 4).

(** A disk with one array, at path 1, a projection that adds up what it
    is given, and a command line. *)
Definition disk (p : nat) : option nat := if p == 1%N then Some 7%N else None.
Definition add_up (b : nat) (cs : seq nat) : outcome nat :=
  Return (b + sumn cs)%N.
Definition command_line (boundary c1 c2 : nat) : arguments nat unit unit nat :=
  mkArguments tt 0%N boundary 0%N 1%Z tt 0%N 0%N 4%Z c1 c2.

(** The driver on that disk, with a generator that pictures a code as
    itself and an interpolation that returns the code. *)
Definition demo_main : arguments nat unit unit nat -> py (trace nat nat) unit :=
  main disk (fun _ : unit => Stylegan) (fun _ => tt) (fun _ => tt)
       (fun (_ : unit) v _ => v) (fun _ _ _ => 0%N)
       (fun _ v => [:: v]) (fun _ v _ => [:: v])
       (fun _ => 1%N) (fun v _ => v)
       add_up (fun c _ _ _ _ => Return c).

(* ===================================================================== *)
(** * FaceModifier: what a call of [modify] computes                      *)
(* ===================================================================== *)

(** The attributes of the object that hold a boundary. *)
Inductive attribute : Type :=
  | AgeBoundary
  | PoseBoundary
  | GenderBoundary
  | SmileBoundary.

Definition boundary_of (a : attribute) (s : FaceModifier) : loc :=
  match a with
  | AgeBoundary => age_boundary s
  | PoseBoundary => pose_boundary s
  | GenderBoundary => gender_boundary s
  | SmileBoundary => smile_boundary s
  end.

Section FaceModifyPlan.

Variables (ndarray scalar : Type).
Variable is_zero : scalar -> bool.
Variable np_multiply : ndarray -> scalar -> ndarray.
Variable np_add : ndarray -> ndarray -> option ndarray.

(** The four branches of [modify], lines 80 to 87, in the order they are
    run: the offset each one tests, and the boundary the method it calls
    moves the code along. *)
Definition branches (s : FaceModifier)
    (age_offset gender_offset pose_offset smile_offset : scalar)
  : seq (scalar * loc) :=
  [:: (age_offset, age_boundary s); (pose_offset, pose_boundary s);
      (smile_offset, pose_boundary s); (gender_offset, gender_boundary s)].

(** The branches run on the contents of the arrays: the code reached, and
    the exception that stopped the run, if any.  A zero offset is passed
    over; an addition that cannot broadcast stops the run with
    [ValueError]. *)
Fixpoint progress (h : store ndarray) (code : ndarray)
    (es : seq (scalar * loc)) : ndarray * option exn :=
  match es with
  | [::] => (code, None)
  | (offset, boundary) :: es' =>
      if is_zero offset then progress h code es'
      else
        match lookup h boundary with
        | None => (code, Some AttributeError)
        | Some vb =>
            match np_add code (np_multiply vb offset) with
            | Some moved => progress h moved es'
            | None => (code, Some ValueError)
            end
        end
  end.

(** The branches that run to their end: those with a non-zero offset,
    before the one that stops the run. *)
Fixpoint completed (h : store ndarray) (code : ndarray)
    (es : seq (scalar * loc)) : nat :=
  match es with
  | [::] => 0
  | (offset, boundary) :: es' =>
      if is_zero offset then completed h code es'
      else
        match lookup h boundary with
        | None => 0
        | Some vb =>
            match np_add code (np_multiply vb offset) with
            | Some moved => (completed h moved es').+1
            | None => 0
            end
        end
  end.

End FaceModifyPlan.

(* ===================================================================== *)
(** * gui/face_modify.py: class FaceModifier2                             *)
(* ===================================================================== *)

(** The four files the constructor reads: [age.npy], [yaw.npy],
    [gender.npy] and [mouth_open.npy] of the hyperplanes directory. *)
Inductive hyperplane : Type := AgeNpy | YawNpy | GenderNpy | MouthOpenNpy.

Section FaceModifier2.

(** [np_load p] is what [np.load(p, allow_pickle=True)] does: it returns
    the array of the file, or raises, with [FileNotFoundError] when the
    file is missing and with another exception when it is there and
    cannot be read ([EOFError] for an empty file, [IsADirectoryError]
    for a directory).  [np_empty] is what [np.empty((1,18,512))] happens
    to hold. *)
Variable ndarray : Type.
Variable np_load : hyperplane -> outcome ndarray.
Variable np_empty : ndarray.
Variable np_expand_dims : ndarray -> ndarray.

(** [FaceModifier.__init__]: [self.latent_code = np.empty((1,18,512))] *)
Definition FaceModifier_init : py (store ndarray) loc := alloc np_empty.

(** [np.expand_dims(np.load(p, allow_pickle=True), axis=0)] *)
Definition load_boundary (p : hyperplane) : py (store ndarray) loc :=
  v <- lift (np_load p) ;;
  alloc (np_expand_dims v).

(** [FaceModifier2.__init__], lines 107 to 118. *)
Definition FaceModifier2_init : py (store ndarray) FaceModifier :=
  code <- FaceModifier_init ;;
  age <- load_boundary AgeNpy ;;
  pose <- load_boundary YawNpy ;;
  gender <- load_boundary GenderNpy ;;
  smile <- load_boundary MouthOpenNpy ;;
  ret (mkFaceModifier code age pose gender smile).

End FaceModifier2.

(* ===================================================================== *)
(** * encoder/InterFaceGAN/edit.py: what a run leaves                     *)
(* ===================================================================== *)

Section EditPlan.

Variables (path name space ndarray image scalar generator : Type).
Variable files : path -> option ndarray.
Variable gan_type_of : name -> gan_type.
Variable PGGANGenerator : name -> generator.
Variable StyleGANGenerator : name -> generator.
Variable preprocess : generator -> ndarray -> option space -> ndarray.
Variable easy_sample : generator -> Z -> option space -> ndarray.
Variable get_batch_inputs : generator -> ndarray -> seq ndarray.
Variable easy_synthesize : generator -> ndarray -> option space -> seq image.

(** An event that writes an image. *)
Definition is_image (e : event ndarray image) : bool :=
  if e is ImWrite _ _ _ then true else false.

(** The image files of a trace: [f'{sample_id:03d}_{interpolation_id:03d}.jpg']
    is told by its two numbers. *)
Definition written (t : trace ndarray image) : seq (nat * nat) :=
  pmap (fun e => if e is ImWrite s i _ then Some (s, i) else None) t.

(** Lines 78 to 85: the generator and the keyword arguments of its calls. *)
Definition chosen_generator (args : arguments path name space scalar)
  : option (generator * option space) :=
  match gan_type_of (model_name args) with
  | Pggan => Some (PGGANGenerator (model_name args), None)
  | Stylegan => Some (StyleGANGenerator (model_name args),
                      Some (latent_space_type args))
  | OtherGan => None
  end.

(** Lines 108 to 115: the latent codes of the run. *)
Definition prepared_codes (args : arguments path name space scalar)
    (model : generator) (kwargs : option space) : ndarray :=
  if files (input_latent_codes_path args) is Some loaded
  then preprocess model loaded kwargs
  else easy_sample model (num args) kwargs.

(** Lines 128 to 134: the images of one sample, batch after batch. *)
Definition sample_images (model : generator) (kwargs : option space)
    (interpolations : ndarray) : seq image :=
  flatten [seq easy_synthesize model interpolations_batch kwargs
          | interpolations_batch <- get_batch_inputs model interpolations].

(** The images of a sample written under the numbers 0, 1, ... *)
Definition sample_writes (sample_id : nat) (imgs : seq image)
  : trace ndarray image :=
  [seq ImWrite ndarray sample_id p.1 p.2 | p <- zip (iota 0 (size imgs)) imgs].

(** The command line with another [--latent_space_type], and with another
    [--num]. *)
Definition with_space (s : space) (args : arguments path name space scalar)
  : arguments path name space scalar :=
  mkArguments (model_name args) (output_dir args) (boundary_path args)
    (input_latent_codes_path args) (num args) s (start_distance args)
    (end_distance args) (steps args) (conditional_boundary1_path args)
    (conditional_boundary2_path args).

Definition with_num (n : Z) (args : arguments path name space scalar)
  : arguments path name space scalar :=
  mkArguments (model_name args) (output_dir args) (boundary_path args)
    (input_latent_codes_path args) n (latent_space_type args)
    (start_distance args) (end_distance args) (steps args)
    (conditional_boundary1_path args) (conditional_boundary2_path args).

End EditPlan.

(** An addition that broadcasts nothing, a generator with no output, and
    an object whose pose boundary has one component too many. *)
Definition strict_add (a b : seq nat) : option (seq nat) :=
  if size a == size b then Some [seq (p.1 + p.2)%N | p <- zip a b] else None.
Definition nat_blank (v : seq nat) : seq (seq nat) := [::].
Definition crooked : world (seq nat) :=
  World [:: [:: 1; 2]; [:: 10; 0]; [:: 0; 10; 0]; [:: 5; 5]; [:: 7; 7]]%N
        (mkFaceModifier 0 1 2 3 4).

(** A command line whose boundary is the file of the disk, with no file
    of latent codes and one step. *)
Definition one_step : arguments nat unit unit nat :=
  mkArguments tt 0%N 1%N 0%N 1%Z tt 0%N 0%N 1%Z 0%N 0%N.

(** A command line for a model of type pggan, whose latent codes are in
    the file of the disk, and the driver for it. *)
Definition pggan_line : arguments nat unit bool nat :=
  mkArguments tt 0%N 1%N 1%N 1%Z true 0%N 0%N 1%Z 0%N 0%N.
Definition pggan_main : arguments nat unit bool nat -> py (trace nat nat) unit :=
  main disk (fun _ : unit => Pggan) (fun _ => tt) (fun _ => tt)
       (fun (_ : unit) v _ => v) (fun _ _ _ => 0%N)
       (fun _ v => [:: v]) (fun _ v _ => [:: v])
       (fun _ => 1%N) (fun v _ => v)
       add_up (fun c _ _ _ _ => Return c).

(* ===================================================================== *)
(** * Arithmetic of the real field                                        *)
(* ===================================================================== *)

Lemma RaddE (x y : R) : x + y = Rplus x y.
Proof. by []. Qed.

Lemma RmulE (x y : R) : x * y = Rmult x y.
Proof. by []. Qed.

Lemma RoppE (x : R) : - x = Ropp x.
Proof. by []. Qed.

Lemma RinvE (x : R) : x^-1 = Rinv x.
Proof. by []. Qed.

Lemma R0E : 0 = R0 :> R.
Proof. by []. Qed.

Lemma R1E : 1 = R1 :> R.
Proof. by []. Qed.

(** Turns the ring operations of the goal into those of the standard
    library, for [lra] and [field]. *)
Ltac stdR := rewrite ?RaddE ?RmulE ?RoppE ?RinvE ?R0E ?R1E.

Lemma sum_sq_eq0 (I : finType) (f : I -> R) :
  \sum_j f j * f j = 0 -> forall j, f j = 0.
Proof.
move=> s0 j; move: s0; rewrite (bigD1 j) //=; set S := (X in _ + X).
have: Rle 0 S.
  rewrite /S; elim/big_rec: _ => [|i x _]; first exact: Rle_refl.
  by stdR; have := Rle_0_sqr (f i); rewrite /Rsqr; lra.
stdR => le0 s0; apply: Rsqr_0_uniq.
by have := Rle_0_sqr (f j); rewrite /Rsqr in s0 *; lra.
Qed.

(* ===================================================================== *)
(** * BoundaryProjector: dot products, Gram matrices, the solved system   *)
(* ===================================================================== *)

Section ProjectorTheory.

Variable D : nat.
Implicit Types (u v r primary : 'rV[R]_D) (conds : seq 'rV[R]_D).

Lemma dotE u v : dot u v = \sum_j u 0 j * v 0 j.
Proof. by rewrite /dot mxE; apply: eq_bigr => j _; rewrite mxE. Qed.

Lemma dotC u v : dot u v = dot v u.
Proof. by rewrite !dotE; apply: eq_bigr => j _; rewrite mulrC. Qed.

Lemma dotZl a u v : dot (a *: u) v = a * dot u v.
Proof. by rewrite /dot -scalemxAl mxE. Qed.

Lemma dotZr a u v : dot u (a *: v) = a * dot u v.
Proof. by rewrite dotC dotZl dotC. Qed.

Lemma dot0l u : dot 0 u = 0.
Proof. by rewrite /dot mul0mx mxE. Qed.

Lemma dot_ge0 u : Rle 0 (dot u u).
Proof.
rewrite dotE; elim/big_rec: _ => [|j x _]; first exact: Rle_refl.
by stdR; have := Rle_0_sqr (u 0 j); rewrite /Rsqr; lra.
Qed.

Lemma dot_eq0 u : dot u u = 0 -> u = 0.
Proof.
rewrite dotE => /sum_sq_eq0 u0; apply/rowP => j.
by rewrite mxE u0.
Qed.

Lemma dot_gt0 u : u != 0 -> Rlt 0 (dot u u).
Proof.
move=> u0; case: (Rle_lt_or_eq_dec _ _ (dot_ge0 u)) => // /esym /dot_eq0 eq0.
by rewrite eq0 eqxx in u0.
Qed.

Lemma norm_gt0 u : u != 0 -> Rlt 0 (norm u).
Proof. by move=> /dot_gt0; exact: sqrt_lt_R0. Qed.

Lemma dot_normalize u : u != 0 -> dot (normalize u) (normalize u) = 1.
Proof.
move=> u0; rewrite /normalize dotZl dotZr.
rewrite -[dot u u]sqrt_sqrt -/(norm u); first exact: dot_ge0.
by have := norm_gt0 u0; stdR => s0; field; lra.
Qed.

Lemma norm_normalize u : u != 0 -> norm (normalize u) = 1.
Proof. by move=> u0; rewrite /norm dot_normalize // R1E sqrt_1. Qed.

Lemma normalize_unit u : norm u = 1 -> normalize u = u.
Proof. by rewrite /normalize => ->; rewrite invr1 scale1r. Qed.

Lemma normalize0 : normalize (0 : 'rV[R]_D) = 0.
Proof. by rewrite /normalize scaler0. Qed.

Lemma normalize_idem u : normalize (normalize u) = normalize u.
Proof.
have [->|u0] := eqVneq u 0; first by rewrite !normalize0.
by rewrite normalize_unit // norm_normalize.
Qed.

Lemma norm_dot u : norm u = 1 -> dot u u = 1.
Proof.
rewrite /norm => s1; rewrite -[dot u u]sqrt_sqrt; first exact: dot_ge0.
by rewrite s1 -RmulE mulr1.
Qed.

Lemma gramE m (A : 'M[R]_(m, D)) i j : gram A i j = dot (row i A) (row j A).
Proof.
rewrite /gram /dot !mxE; apply: eq_bigr => k _.
by rewrite !mxE.
Qed.

(** The Gram matrix is invertible exactly when the rows are linearly
    independent. *)
Lemma gram_unit m (A : 'M[R]_(m, D)) : (gram A \in unitmx) = row_free A.
Proof.
apply/idP/idP => [Gu|Afree].
  apply: inj_row_free => v vA0.
  have /row_free_inj : row_free (gram A) by rewrite row_free_unit.
  by apply; rewrite /gram mulmxA vA0 !mul0mx.
rewrite -row_free_unit; apply: inj_row_free => v vG0.
have /dot_eq0 vA0 : dot (v *m A) (v *m A) = 0.
  by rewrite /dot trmx_mul mulmxA -(mulmxA v) -/(gram A) vG0 mul0mx mxE.
by apply: (row_free_inj Afree); rewrite vA0 mul0mx.
Qed.

Lemma row_stack0 primary conds : row 0 (stack primary conds) = primary.
Proof.
have -> : 0 = lshift (size conds) (0 : 'I_1) by exact/val_inj.
by rewrite /stack (rowKu 0 primary (rows conds)) row_id.
Qed.

Lemma row_stackS primary conds (i : 'I_(size conds)) :
  row (rshift 1 i) (stack primary conds) = nth 0 conds i.
Proof. by rewrite /stack rowKd rowK. Qed.

Section Solve.

Variables (primary : 'rV[R]_D) (conds : seq 'rV[R]_D).
Let A := stack primary conds.
Let G := gram A.
Hypothesis Gu : G \in unitmx.
Let w : 'rV[R]_(1 + size conds) := row 0 (invmx G).
Let v : 'rV[R]_D := w *m A.

Lemma solve_rowE i : dot v (row i A) = (i == 0)%:R.
Proof.
have <- : (v *m A^T) 0 i = dot v (row i A).
  by rewrite dotE mxE; apply: eq_bigr => k _; rewrite !mxE.
by rewrite /v -mulmxA -/(gram A) -row_mul mulVmx // row1 mxE eqxx eq_sym.
Qed.

Lemma solve_primary : dot v primary = 1.
Proof. by rewrite -[primary](row_stack0 _ conds) solve_rowE eqxx. Qed.

Lemma solve_cond (i : 'I_(size conds)) : dot v (nth 0 conds i) = 0.
Proof. by rewrite -(row_stackS primary) solve_rowE. Qed.

Lemma solve_neq0 : v != 0.
Proof.
apply/eqP => v0; have := solve_primary; rewrite v0 dot0l => /eqP.
by rewrite eq_sym oner_eq0.
Qed.

Lemma solve_pivot : invmx G 0 0 = dot v v.
Proof.
rewrite /dot {2}/v trmx_mul mulmxA.
have -> : v *m A^T = delta_mx 0 0.
  by rewrite /v -mulmxA -/(gram A) -row_mul mulVmx // row1.
by rewrite -rowE !mxE.
Qed.

Lemma solve_pivot_neq0 : invmx G 0 0 != 0.
Proof.
apply/eqP => p0; have := dot_gt0 solve_neq0.
by rewrite -solve_pivot p0; exact: Rlt_irrefl.
Qed.

(** The boundary before normalisation is row 0 of the inverse applied to
    the stacked boundaries, rescaled. *)
Lemma new_boundaryE :
  new_boundary primary (invmx G) = (invmx G 0 0)^-1 *: v.
Proof.
rewrite /v mulmx_sum_row big_split_ord /= big_ord1 scalerDr scalerA.
have -> : lshift (size conds) (0 : 'I_1) = 0 by exact/val_inj.
rewrite mxE mulVf ?solve_pivot_neq0 // scale1r row_stack0 /new_boundary.
congr (_ + _); rewrite scaler_sumr -sumrN; apply: eq_bigr => i _.
by rewrite row_stackS scalerA -scaleNr /coefficient opprK mxE mulrC.
Qed.

End Solve.

(** What a projection with an invertible Gram matrix returns has unit
    norm and is orthogonal to every conditional. *)
Lemma project_solved primary conds :
  gram (stack primary conds) \in unitmx ->
  let r :=
    normalize (new_boundary primary (invmx (gram (stack primary conds)))) in
  norm r = 1 /\ forall i : 'I_(size conds), dot r (nth 0 conds i) = 0.
Proof.
move=> Gu r; split.
  apply: norm_normalize; rewrite new_boundaryE // scaler_eq0 invr_eq0.
  by rewrite negb_or solve_pivot_neq0 // solve_neq0.
by move=> i; rewrite /r /normalize new_boundaryE // !dotZl solve_cond // !mulr0.
Qed.

Lemma stack_free_conds primary conds :
  row_free (stack primary conds) -> row_free (rows conds).
Proof.
move=> Afree; apply: inj_row_free => y yC0.
have : row_mx (0 : 'rV_1) y *m stack primary conds = 0 *m stack primary conds.
  by rewrite /stack mul_row_col mul0mx add0r yC0 mul0mx.
by move/(row_free_inj Afree)/(congr1 rsubmx); rewrite row_mxKr => ->; rewrite linear0.
Qed.

Lemma rows_orth r conds :
  (forall i : 'I_(size conds), dot r (nth 0 conds i) = 0) ->
  rows conds *m r^T = 0.
Proof.
move=> orth; apply/matrixP => i j; rewrite ord1 [RHS]mxE.
rewrite -(orth i) dotC dotE mxE; apply: eq_bigr => k _.
by rewrite !mxE.
Qed.

Lemma stack_free_unit_orth r conds :
  norm r = 1 -> (forall i : 'I_(size conds), dot r (nth 0 conds i) = 0) ->
  row_free (rows conds) -> row_free (stack r conds).
Proof.
move=> r1 orth Cfree; apply: inj_row_free => x.
rewrite -[x]hsubmxK /stack mul_row_col.
set a := lsubmx x; set y := rsubmx x => xA0.
have a0 : a = 0.
  have := congr1 (mulmx^~ r^T) xA0.
  rewrite mulmxDl -!mulmxA rows_orth // mulmx0 addr0 mul0mx.
  have -> : r *m r^T = 1%:M by rewrite [LHS]mx11_scalar -/(dot r r) norm_dot.
  by rewrite mulmx1.
move: xA0; rewrite a0 mul0mx add0r => yC0.
have -> : y = 0 by apply: (row_free_inj Cfree); rewrite yC0 mul0mx.
by rewrite row_mx0.
Qed.

Lemma gram_unit_row0 r conds :
  norm r = 1 -> (forall i : 'I_(size conds), dot r (nth 0 conds i) = 0) ->
  gram (stack r conds) \in unitmx ->
  row 0 (invmx (gram (stack r conds))) = delta_mx 0 0.
Proof.
move=> r1 orth Gu; pose e : 'rV[R]_(1 + size conds) := delta_mx 0 0.
have e0 : e *m gram (stack r conds) = e.
  rewrite -rowE; apply/rowP => j; rewrite mxE gramE [RHS]mxE row_stack0 eqxx /=.
  case: (split_ordP j) => k ->.
    rewrite ord1; have -> : lshift (size conds) (0 : 'I_1) = 0 by exact/val_inj.
    by rewrite row_stack0 norm_dot ?eqxx.
  by rewrite row_stackS orth.
by rewrite rowE -/e -{1}e0 mulmxK.
Qed.

Lemma independent_free (B C : 'rV[R]_D) :
  independent B C -> row_free (stack B [:: C]).
Proof.
move=> indep; apply: inj_row_free => x.
rewrite mulmx_sum_row big_split_ord /= !big_ord1.
have -> : lshift 1 (0 : 'I_1) = 0 :> 'I_(1 + size [:: C]) by exact/val_inj.
rewrite (row_stack0 B [:: C]) (@row_stackS B [:: C]) /= => /indep [x0 x1].
apply/rowP => j; rewrite [RHS]mxE; case: (split_ordP j) => k ->; rewrite ord1 //.
by rewrite -x0; congr (x _ _); exact/val_inj.
Qed.

Lemma free_independent (B C : 'rV[R]_D) :
  row_free (stack B [:: C]) -> independent B C.
Proof.
move=> Afree a b abE.
have : row_mx a%:M b%:M *m stack B [:: C] = 0 *m stack B [:: C].
  rewrite /stack mul_row_col !mul_scalar_mx mul0mx -[RHS]abE; congr (_ + _ *: _).
  by apply/rowP => j; rewrite !mxE.
move/(row_free_inj Afree) => x0; split.
  by have := congr1 (fun x : 'rV_(1 + 1) => x 0 (lshift 1 0)) x0; rewrite row_mxEl !mxE.
by have := congr1 (fun x : 'rV_(1 + 1) => x 0 (rshift 1 0)) x0; rewrite row_mxEr !mxE.
Qed.

Lemma gram_duplicate (B C : 'rV[R]_D) :
  gram (stack B [:: C; C]) \notin unitmx.
Proof.
rewrite unitmxE unitfE negbK; apply/eqP.
apply: (@determinant_alternate _ _ _ (rshift 1 ord0) (rshift 1 ord_max)) => // j.
by rewrite !gramE !(@row_stackS B [:: C; C]).
Qed.

End ProjectorTheory.

(* ===================================================================== *)
(** * BoundaryProjector: the properties of spec section 8                 *)
(* ===================================================================== *)

Lemma project_free D (B : 'rV[R]_D) (C : 'rV[R]_D) (Cs : seq 'rV[R]_D) :
  row_free (stack B (C :: Cs)) ->
  project B (C :: Cs)
  = Ok (normalize (new_boundary B (invmx (gram (stack B (C :: Cs)))))).
Proof. by rewrite -gram_unit /project => ->. Qed.

Lemma axis0_neq0 : axis0 != 0.
Proof.
apply/eqP => /rowP /(_ 0); rewrite !mxE !eqxx /= => /eqP.
by rewrite oner_eq0.
Qed.

Lemma axes_independent : independent axis0 axis1.
Proof.
move=> a b /rowP e; split.
  by have := e 0; rewrite !mxE /= mulr1 mulr0 addr0.
by have := e ord_max; rewrite !mxE /= mulr1 mulr0 add0r.
Qed.





(** C4.  A duplicated conditional boundary makes the projection fail with
    [SingularMatrix]: no boundary is returned, and the index named is
    that of a conditional (the duplicate, index 1, when [B] and [C] are
    independent; index 0 when [C] already depends on [B]). *)
Theorem project_duplicate D (B C : 'rV[R]_D) :
  exists i : nat,
    [/\ project B [:: C; C] = Err (SingularMatrix i),
        (i < 2)%N,
        forall r, project B [:: C; C] <> Ok r
      & (independent B C -> i = 1%N) /\ (~ independent B C -> i = 0%N)].
Proof.
have sing := gram_duplicate B C.
exists (degenerate_index B [:: C; C]).
have idxE : degenerate_index B [:: C; C]
            = if row_free (stack B [:: C]) then 1%N else 0%N.
  by rewrite /degenerate_index /= sing gram_unit; case: row_free.
rewrite /project (negbTE sing); split=> //.
- by rewrite idxE; case: row_free.
- rewrite idxE; split=> [/independent_free -> //|nindep].
  by case: ifP => // /free_independent.
Qed.

Lemma project_duplicate_witness :
  project axis0 [:: axis1; axis1] = Err (SingularMatrix 1).
Proof.
have [i [-> _ _ [i1 _]]] := project_duplicate axis0 axis1.
by rewrite (i1 axes_independent).
Defined.




Section InterpolatorTheory.

Implicit Types (code : LatentCode) (boundary : vec) (start stop : R).
Implicit Types (steps : Z).

Lemma mismatchedE code boundary :
  mismatched code boundary = ~~ compatible code boundary.
Proof.
rewrite /mismatched /compatible -has_predC; apply: eq_has => row /=.
by rewrite /broadcastable !negb_or.
Qed.

Lemma size_distances start stop steps :
  size (distances start stop steps) = Z.to_nat steps.
Proof. by rewrite /distances size_map size_iota. Qed.

Lemma nth_distances start stop steps k :
  (k < Z.to_nat steps)%N ->
  nth 0 (distances start stop steps) k
  = distance start stop steps (Z.of_nat k).
Proof.
by move=> lt; rewrite /distances (nth_map 0%N) ?size_iota // nth_iota // add0n.
Qed.

Lemma divisor_neq0 steps : IZR (Z.max (steps - 1) 1) != 0.
Proof. by apply/eqP; apply: not_0_IZR; lia. Qed.

Lemma distance_first start stop steps : distance start stop steps 0 = start.
Proof. by rewrite /distance [IZR 0]/(0 : R) !mul0r addr0. Qed.

Lemma distance_last start stop steps :
  (2 <= steps)%Z -> distance start stop steps (steps - 1) = stop.
Proof.
move=> ge2; rewrite /distance.
have -> : Z.max (steps - 1) 1 = (steps - 1)%Z by lia.
have m0 : IZR (steps - 1) != 0 by apply/eqP; apply: not_0_IZR; lia.
by rewrite [IZR _ * _]mulrC mulfK // addrC subrK.
Qed.

Lemma interpolate_ok code boundary start stop steps :
  (1 <= steps)%Z -> compatible code boundary ->
  interpolate code boundary start stop steps
  = Ok [seq shift code boundary d | d <- distances start stop steps].
Proof.
move=> ge1 ok; rewrite /interpolate ok /=.
by have /Z.ltb_ge -> := ge1.
Qed.

Lemma size_stretch (x y : vec) :
  broadcastable (size x) (size y) ->
  size (stretch (size y) x) = (if size x == 1%N then size y else size x)
  /\ size (stretch (size x) y) = (if size x == 1%N then size y else size x).
Proof.
rewrite /broadcastable /stretch.
case x1: (size x == 1%N); case y1: (size y == 1%N); rewrite ?size_nseq //=.
- by rewrite (eqP x1) (eqP y1).
- by rewrite orbF => /eqP ->.
Qed.

Lemma nth_stretch (x y : vec) j :
  (j < (if size x == 1%N then size y else size x))%N ->
  nth 0 (stretch (size y) x) j
  = (if size x == 1%N then head 0 x else nth 0 x j).
Proof.
by rewrite /stretch; case: (size x == 1%N) => // lt; rewrite nth_nseq lt.
Qed.

Lemma nth_stretch_other (x y : vec) j :
  (j < (if size x == 1%N then size y else size x))%N ->
  nth 0 (stretch (size x) y) j
  = (if size y == 1%N then head 0 y else nth 0 y j).
Proof.
rewrite /stretch; case y1: (size y == 1%N) => // lt; rewrite nth_nseq.
have -> // : (j < size x)%N.
by move: lt; case x1: (size x == 1%N) => //; rewrite (eqP x1) (eqP y1).
Qed.

Lemma nth_vadd (x y : vec) j :
  broadcastable (size x) (size y) ->
  (j < (if size x == 1%N then size y else size x))%N ->
  nth 0 (vadd x y) j
  = (if size x == 1%N then head 0 x else nth 0 x j)
    + (if size y == 1%N then head 0 y else nth 0 y j).
Proof.
move=> ok lt; have [sx sy] := size_stretch ok.
rewrite /vadd /broadcast2 (nth_map (0, 0)) ?size_zip ?sx ?sy ?minnn //.
by rewrite nth_zip ?sx ?sy //= nth_stretch // nth_stretch_other.
Qed.

Lemma size_vadd (x y : vec) :
  broadcastable (size x) (size y) ->
  size (vadd x y) = (if size x == 1%N then size y else size x).
Proof.
move=> ok; have [sx sy] := size_stretch ok.
by rewrite /vadd /broadcast2 size_map size_zip sx sy minnn.
Qed.

Lemma nth_vscale (d : R) (x : vec) j :
  (if size (vscale d x) == 1%N then head 0 (vscale d x)
   else nth 0 (vscale d x) j)
  = d * (if size x == 1%N then head 0 x else nth 0 x j).
Proof.
rewrite /vscale size_map; case: ifP => [|_]; first by case: x.
have [lt|ge] := ltnP j (size x); first by rewrite (nth_map 0).
by rewrite !nth_default ?size_map // mulr0.
Qed.

(** The components of [code + d * boundary]: those of the vectors of
    the code, each with [d] times the component of the boundary added,
    an axis of length one standing for every index. *)
Lemma nth_shift code boundary (d : R) i :
  compatible code boundary -> (i < size code)%N ->
  let row := nth [::] code i in
  let n := if size row == 1%N then size boundary else size row in
  size (nth [::] (shift code boundary d) i) = n /\
  forall j, (j < n)%N ->
    nth 0 (nth [::] (shift code boundary d) i) j
    = (if size row == 1%N then head 0 row else nth 0 row j)
      + d * (if size boundary == 1%N then head 0 boundary
             else nth 0 boundary j).
Proof.
move=> /allP ok lt row n.
have okr : broadcastable (size row) (size (vscale d boundary)).
  by rewrite /vscale size_map; apply: ok; rewrite mem_nth.
rewrite /shift (nth_map [::]) // -/row; split.
  by rewrite size_vadd // /vscale size_map.
move=> j ltj; rewrite nth_vadd ?nth_vscale //.
by rewrite /vscale size_map.
Qed.

End InterpolatorTheory.




(** Spec section 8: four steps from -1 to 1 are at -1, -1/3, 1/3 and 1. *)
Lemma distances_four :
  distances (IZR (-1)) (IZR 1) 4
  = [:: IZR (-1); IZR (-1) / IZR 3; IZR 1 / IZR 3; IZR 1].
Proof.
rewrite /distances /= /distance /=.
have -> : Z.max 3 1 = 3%Z by [].
by congr [:: _; _; _; _]; stdR; field.
Qed.

(** Spec section 8: from the zero code along the first axis, three steps
    from 0 to 2 give the codes (0,0,0), (1,0,0) and (2,0,0). *)
Lemma interpolate_axis :
  interpolate zero3 unit3 0 (IZR 2) 3
  = Ok [:: [:: [:: 0; 0; 0]]; [:: [:: 1; 0; 0]]; [:: [:: IZR 2; 0; 0]]].
Proof.
rewrite interpolate_ok // /distances /= /shift /= /vadd /broadcast2 /=.
rewrite /distance /=; have -> : Z.max 2 1 = 2%Z by [].
by congr (Ok [:: [:: [:: _; _; _]]; [:: [:: _; _; _]]; [:: [:: _; _; _]]]);
   stdR; field.
Qed.

(** Spec section 8: one step at 0.5 gives the single code
    [code + 0.5 * boundary]. *)
Lemma interpolate_single (code : LatentCode) (boundary : vec) :
  compatible code boundary ->
  interpolate code boundary (IZR 1 / IZR 2) (IZR 1 / IZR 2) 1
  = Ok [:: shift code boundary (IZR 1 / IZR 2)].
Proof. by move=> ok; rewrite interpolate_ok // /distances /= distance_first. Qed.

(** C5.  [interpolate] fails with [InvalidRange] whenever [steps < 1],
    and fails whenever the trailing dimensions differ and are not
    broadcastable: with [ShapeMismatch], unless [steps < 1] as well, when
    the one error reported is the range error.  A failure carries no
    sequence, and a success carries the whole one: [steps] codes, one for
    each distance. *)
Theorem interpolate_failures (code : LatentCode) (boundary : vec)
    (start stop : R) (steps : Z) :
  [/\ (steps < 1)%Z ->
        interpolate code boundary start stop steps = Err InvalidRange,
      mismatched code boundary ->
        interpolate code boundary start stop steps
        = Err (if (steps <? 1)%Z then InvalidRange else ShapeMismatch),
      (1 <= steps)%Z -> mismatched code boundary ->
        interpolate code boundary start stop steps = Err ShapeMismatch
    & forall out, interpolate code boundary start stop steps = Ok out ->
        [/\ (1 <= steps)%Z, ~~ mismatched code boundary,
            size out = Z.to_nat steps
          & out = [seq shift code boundary d
                  | d <- distances start stop steps]]].
Proof.
rewrite mismatchedE /interpolate; split.
- by move=> /Z.ltb_lt ->.
- by move=> ->; case: ifP.
- by move=> /Z.ltb_ge -> ->.
- move=> out; case: ifP => // /Z.ltb_ge ge1; case: ifP => // ok [<-].
  by rewrite size_map size_distances.
Qed.

Lemma interpolate_failures_witness :
  [/\ interpolate zero3 unit3 0 1 0 = Err InvalidRange,
      interpolate zero3 pair2 0 1 0 = Err InvalidRange
    & interpolate zero3 pair2 0 1 2 = Err ShapeMismatch].
Proof.
have [range0 _ _ _] := interpolate_failures zero3 unit3 0 1 0.
have [range1 _ _ _] := interpolate_failures zero3 pair2 0 1 0.
have [_ _ shape _] := interpolate_failures zero3 pair2 0 1 2.
by split; [exact: range0 | exact: range1 | exact: shape].
Defined.

(** Trailing dimensions 3 and 2 with no step: the error is the range
    error, not [ShapeMismatch]. *)
Lemma interpolate_failures_counterexample :
  mismatched zero3 pair2 /\
  interpolate zero3 pair2 0 1 0 <> Err ShapeMismatch.
Proof. by []. Qed.

(** No interpolation, whatever it checks first, reports [ShapeMismatch]
    whenever the shapes mismatch and [InvalidRange] whenever
    [steps < 1]: an input can have both defects, and a call fails with
    one error. *)
Lemma interpolate_errors_overlap
    (f : LatentCode -> vec -> R -> R -> Z -> result (seq LatentCode)) :
  (forall code boundary start stop steps,
     mismatched code boundary ->
     f code boundary start stop steps = Err ShapeMismatch) ->
  (forall code boundary start stop steps,
     (steps < 1)%Z -> f code boundary start stop steps = Err InvalidRange) ->
  False.
Proof.
move=> shape range.
have := shape zero3 pair2 0 1 0%Z isT.
by rewrite (range zero3 pair2 0 1 0%Z).
Qed.

(* ===================================================================== *)
(** * Computations and the store                                          *)
(* ===================================================================== *)

Lemma bind_Return (S A B : Type) (m : py S A) (k : A -> py S B) s b s' :
  bind m k s = (Return b, s') ->
  exists a s1, m s = (Return a, s1) /\ k a s1 = (Return b, s').
Proof.
rewrite /bind; case: (m s) => [[a|e] s1] // kE.
by exists a, s1.
Qed.

Section StoreTheory.

Variable cell : Type.
Implicit Types (h : store cell) (l : loc) (v : cell).
Local Notation allocating := (@allocating cell _).

Lemma extends_refl h : extends h h.
Proof. by exists [::]; rewrite cats0. Qed.

Lemma extends_trans h1 h2 h3 :
  extends h1 h2 -> extends h2 h3 -> extends h1 h3.
Proof. by move=> [n1 ->] [n2 ->]; exists (n1 ++ n2); rewrite catA. Qed.

Lemma extends_rcons h v : extends h (rcons h v).
Proof. by exists [:: v]; rewrite cats1. Qed.

Lemma extends_size h h' : extends h h' -> (size h <= size h')%N.
Proof. by move=> [new ->]; rewrite size_cat leq_addr. Qed.

Lemma lookup_size h l v : lookup h l = Some v -> (l < size h)%N.
Proof.
rewrite /lookup; case: (ltnP l (size h)) => // le.
by rewrite nth_default // size_map.
Qed.

Lemma lookup_nth h l v0 : (l < size h)%N -> lookup h l = Some (nth v0 h l).
Proof. by move=> lt; rewrite /lookup (nth_map v0). Qed.

(** An array of the old store is found unchanged in the new one. *)
Lemma lookup_extends h h' l v :
  extends h h' -> lookup h l = Some v -> lookup h' l = Some v.
Proof.
move=> [new ->] hl; have lt := lookup_size hl.
by rewrite -hl /lookup map_cat nth_cat size_map lt.
Qed.

Lemma lookup_rcons_last h v : lookup (rcons h v) (size h) = Some v.
Proof. by rewrite /lookup map_rcons nth_rcons size_map ltnn eqxx. Qed.

Lemma allocating_ret A (a : A) : allocating (ret a).
Proof. by move=> h; exact: extends_refl. Qed.

Lemma allocating_raise A e : allocating (@raise _ A e).
Proof. by move=> h; exact: extends_refl. Qed.

Lemma allocating_load l : allocating (load l).
Proof. by move=> h; rewrite /load; case: lookup => [v|]; exact: extends_refl. Qed.

Lemma allocating_alloc v : allocating (alloc v).
Proof. by move=> h; exact: extends_rcons. Qed.

Lemma allocating_bind A B (m : py (store cell) A) (k : A -> py (store cell) B) :
  allocating m -> (forall a, allocating (k a)) -> allocating (bind m k).
Proof.
move=> am ak h; rewrite /bind; have := am h.
case: (m h) => [[a|e] h1] //= ext1.
exact: extends_trans ext1 (ak a h1).
Qed.

End StoreTheory.

(* ===================================================================== *)
(** * FaceModifier                                                        *)
(* ===================================================================== *)

Section FaceModifyTheory.

Variables (ndarray scalar image : Type).
Variable is_zero : scalar -> bool.
Variable np_multiply : ndarray -> scalar -> ndarray.
Variable np_add : ndarray -> ndarray -> option ndarray.
Variable easy_synthesize : ndarray -> seq image.

Implicit Types (w : world ndarray) (x : scalar) (l b : loc).
Local Notation keeping := (@keeping ndarray _).
Local Notation blind := (@blind ndarray _).

Lemma keeping_ret A (a : A) : keeping (ret a).
Proof. by move=> w; exact: extends_refl. Qed.

Lemma keeping_raise A e : keeping (@raise _ A e).
Proof. by move=> w; exact: extends_refl. Qed.

Lemma keeping_getattr A (field : FaceModifier -> A) : keeping (getattr field).
Proof. by move=> w; exact: extends_refl. Qed.

Lemma keeping_set_latent_code l : keeping (set_latent_code (ndarray:=ndarray) l).
Proof. by move=> w; exact: extends_refl. Qed.

Lemma keeping_on_heap A (m : py (store ndarray) A) :
  allocating m -> keeping (on_heap m).
Proof. by move=> am w; rewrite /on_heap; have := am (heap w); case: (m _). Qed.

Lemma keeping_bind A B (m : py (world ndarray) A) (k : A -> py _ B) :
  keeping m -> (forall a, keeping (k a)) -> keeping (bind m k).
Proof.
move=> km kk w; rewrite /bind; have := km w.
case: (m w) => [[a|e] w1] //= ext1.
exact: extends_trans ext1 (kk a w1).
Qed.

Lemma keeping_when c (m : py (world ndarray) unit) :
  keeping m -> keeping (when c m).
Proof. by case: c => //= _; exact: keeping_ret. Qed.

Lemma allocating_multiply b x : allocating (multiply np_multiply b x).
Proof.
apply: allocating_bind => [|v]; first exact: allocating_load.
exact: allocating_alloc.
Qed.

Lemma allocating_add l b : allocating (add np_add l b).
Proof.
apply: allocating_bind => [|va]; first exact: allocating_load.
apply: allocating_bind => [|vb]; first exact: allocating_load.
by case: np_add => [v|]; [exact: allocating_alloc | exact: allocating_raise].
Qed.

Lemma keeping_modify_latent_code b x :
  keeping (modify_latent_code np_multiply np_add b x).
Proof.
apply: keeping_bind => [|code]; first exact: keeping_getattr.
apply: keeping_bind => [|scaled].
  by apply: keeping_on_heap; exact: allocating_multiply.
by apply: keeping_on_heap; exact: allocating_add.
Qed.

Lemma keeping_edit (field : FaceModifier -> loc) x :
  keeping (bind (getattr field) (fun b =>
           bind (modify_latent_code np_multiply np_add b x) (fun code =>
           set_latent_code code))).
Proof.
apply: keeping_bind => [|b]; first exact: keeping_getattr.
apply: keeping_bind => [|code]; first exact: keeping_modify_latent_code.
exact: keeping_set_latent_code.
Qed.

Lemma keeping_synthesize : keeping (synthesize easy_synthesize).
Proof.
apply: keeping_bind => [|code]; first exact: keeping_getattr.
apply: keeping_bind => [|v]; last exact: keeping_ret.
by apply: keeping_on_heap; exact: allocating_load.
Qed.

Lemma keeping_modify age gender pose smile :
  keeping (modify is_zero np_multiply np_add easy_synthesize
             age gender pose smile).
Proof.
rewrite /modify; case: ifP => _.
  apply: keeping_bind => [|out]; first exact: keeping_synthesize.
  by apply: keeping_bind => [|code]; [exact: keeping_getattr | exact: keeping_ret].
do 4![apply: keeping_bind => [|_]; first by apply: keeping_when; exact: keeping_edit].
apply: keeping_bind => [|out]; first exact: keeping_synthesize.
apply: keeping_bind => [|first].
  by case: out => [|i out]; [exact: keeping_raise | exact: keeping_ret].
by apply: keeping_bind => [|code]; [exact: keeping_getattr | exact: keeping_ret].
Qed.

(** [modify_latent_code] does not touch the object, and what it returns
    is a new array. *)
Lemma modify_latent_code_self b x w :
  self (modify_latent_code np_multiply np_add b x w).2 = self w.
Proof.
rewrite /modify_latent_code /bind /getattr /on_heap /=.
case: (multiply _ _ _ _) => [[scaled|e] h1] //=.
by case: (add _ _ _ _) => [[l|e] h2].
Qed.

Lemma modify_latent_code_fresh b x w l w' :
  modify_latent_code np_multiply np_add b x w = (Return l, w') ->
  fresh (heap w) (heap w') l.
Proof.
rewrite /modify_latent_code /bind /getattr /on_heap /=.
have := allocating_multiply b x (heap w).
case: (multiply _ _ _ _) => [[scaled|e] h1] //= /extends_size le1.
rewrite /add /bind /load; case: lookup => [va|] //=.
case: lookup => [vb|] //=; case: np_add => [v|] //= [<- <-] /=.
by rewrite /fresh size_rcons le1 ltnSn.
Qed.

(** [modify] and what it is made of never read the smile boundary. *)
Lemma blind_ret A (a : A) : blind (ret a).
Proof. by []. Qed.

Lemma blind_raise A e : blind (@raise _ A e).
Proof. by []. Qed.

Lemma blind_bind A B (m : py (world ndarray) A) (k : A -> py _ B) :
  blind m -> (forall a, blind (k a)) -> blind (bind m k).
Proof.
move=> bm bk other w; rewrite /bind bm.
by case: (m w) => [[a|e] w1] //=; rewrite bk.
Qed.

Lemma blind_when c (m : py (world ndarray) unit) : blind m -> blind (when c m).
Proof. by case: c. Qed.

Lemma blind_on_heap A (m : py (store ndarray) A) : blind (on_heap m).
Proof. by move=> other w; rewrite /on_heap /=; case: (m _). Qed.

Lemma blind_set_latent_code l : blind (set_latent_code (ndarray:=ndarray) l).
Proof. by []. Qed.

Lemma blind_modify_latent_code b x :
  blind (modify_latent_code np_multiply np_add b x).
Proof.
apply: (@blind_bind _ _ (getattr latent_code)) => // code.
by apply: blind_bind => [|scaled]; exact: blind_on_heap.
Qed.

Lemma blind_edit (field : FaceModifier -> loc) x :
  (forall other w, field (self (with_smile other w)) = field (self w)) ->
  blind (bind (getattr field) (fun b =>
         bind (modify_latent_code np_multiply np_add b x) (fun code =>
         set_latent_code code))).
Proof.
move=> same; apply: blind_bind => [other w|b].
  by rewrite /getattr same.
apply: blind_bind => [|code]; first exact: blind_modify_latent_code.
exact: blind_set_latent_code.
Qed.

Lemma blind_synthesize : blind (synthesize easy_synthesize).
Proof.
apply: (@blind_bind _ _ (getattr latent_code)) => // code.
by apply: blind_bind => [|v]; [exact: blind_on_heap | exact: blind_ret].
Qed.

Lemma blind_modify age gender pose smile :
  blind (modify is_zero np_multiply np_add easy_synthesize
           age gender pose smile).
Proof.
rewrite /modify; case: ifP => _.
  apply: blind_bind => [|out]; first exact: blind_synthesize.
  by apply: (@blind_bind _ _ (getattr latent_code)).
do 4![apply: blind_bind => [|_]; first by apply: blind_when; exact: blind_edit].
apply: blind_bind => [|out]; first exact: blind_synthesize.
apply: blind_bind => [|first]; first by case: out.
by apply: (@blind_bind _ _ (getattr latent_code)).
Qed.

(** One edit, run: the scaled boundary and the moved code are two new
    arrays, and [self.latent_code] is rebound to the second. *)
Lemma edit_run (field : FaceModifier -> loc) x w vc vb v :
  lookup (heap w) (latent_code (self w)) = Some vc ->
  lookup (heap w) (field (self w)) = Some vb ->
  np_add vc (np_multiply vb x) = Some v ->
  bind (getattr field) (fun b =>
  bind (modify_latent_code np_multiply np_add b x) (fun code =>
  set_latent_code code)) w
  = (Return tt,
     World (rcons (rcons (heap w) (np_multiply vb x)) v)
           (rebound (self w) (size (heap w)).+1)).
Proof.
move=> hc hb hv.
rewrite /bind /getattr /modify_latent_code /bind /getattr /on_heap /=.
rewrite /multiply /bind /load hb /= /add /bind /load /=.
rewrite (lookup_extends (extends_rcons _ _) hc) lookup_rcons_last hv /=.
by rewrite /set_latent_code /= size_rcons.
Qed.

Lemma synthesize_run w v :
  lookup (heap w) (latent_code (self w)) = Some v ->
  synthesize easy_synthesize w = (Return (easy_synthesize v), w).
Proof.
move=> hv; rewrite /synthesize /bind /getattr /on_heap /load hv /=.
by case: w hv.
Qed.

Lemma synthesize_Return w out w' :
  synthesize easy_synthesize w = (Return out, w') ->
  w' = w /\ exists2 v, lookup (heap w) (latent_code (self w)) = Some v
                      & out = easy_synthesize v.
Proof.
rewrite /synthesize /bind /getattr /on_heap /load /=.
case hv: lookup => [v|] //= [<- <-]; split; first by case: w hv.
by exists v.
Qed.

Lemma bound_lookup w l :
  (l < size (heap w))%N -> exists v, lookup (heap w) l = Some v.
Proof.
case: (heap w) => [|v0 h] // lt; exists (nth v0 (v0 :: h) l).
exact: lookup_nth.
Qed.

(** With operands that always broadcast, an edit of a world whose
    attributes are bound succeeds and leaves them bound. *)
Lemma edit_total (field : FaceModifier -> loc) x w :
  (forall a c, isSome (np_add a c)) ->
  bound w -> (field (self w) < size (heap w))%N ->
  exists2 w', bind (getattr field) (fun b =>
              bind (modify_latent_code np_multiply np_add b x) (fun code =>
              set_latent_code code)) w = (Return tt, w')
            & bound w' /\
              [/\ age_boundary (self w') = age_boundary (self w),
                  pose_boundary (self w') = pose_boundary (self w),
                  gender_boundary (self w') = gender_boundary (self w)
                & smile_boundary (self w') = smile_boundary (self w)].
Proof.
move=> total bw ltf; have := bw; rewrite /bound /= andbT => /and5P [lc la lp lg ls].
have [vc hc] := bound_lookup lc; have [vb hb] := bound_lookup ltf.
case hv: (np_add vc (np_multiply vb x)) (total vc (np_multiply vb x)) => [v|] // _.
eexists; first exact: (edit_run hc hb hv).
split=> //; rewrite /bound /= !size_rcons ltnSn /= andbT.
by rewrite (leqW (leqW la)) (leqW (leqW lp)) (leqW (leqW lg)) (leqW (leqW ls)).
Qed.

End FaceModifyTheory.

(** C8.  A smile edit moves the code along the pose boundary.  With a
    non-zero smile offset the smile branch of [modify] is
    [change_pose smile_offset]; [modify] does the same whatever the
    smile boundary is; and with the other offsets zero it is the same
    computation as a pose edit by that offset, whose new latent code is
    the old one plus the scaled pose boundary. *)
Theorem smile_edit_moves_pose (ndarray scalar image : Type)
    (is_zero : scalar -> bool)
    (np_multiply : ndarray -> scalar -> ndarray)
    (np_add : ndarray -> ndarray -> option ndarray)
    (easy_synthesize : ndarray -> seq image)
    (w : world ndarray) (age gender pose smile : scalar) :
  ~~ is_zero smile ->
  let run := modify is_zero np_multiply np_add easy_synthesize in
  [/\ run age gender pose smile w
      = (when (~~ is_zero age) (change_age np_multiply np_add age) ;;
         when (~~ is_zero pose) (change_pose np_multiply np_add pose) ;;
         change_pose np_multiply np_add smile ;;
         when (~~ is_zero gender) (change_gender np_multiply np_add gender) ;;
         output <- synthesize easy_synthesize ;;
         first <- getitem0 output ;;
         code <- getattr latent_code ;;
         ret (Image first, code)) w,
      forall other,
        run age gender pose smile (with_smile other w)
        = let: (r, w') := run age gender pose smile w in
          (r, with_smile other w')
    & is_zero age -> is_zero gender -> is_zero pose ->
      run age gender pose smile w = run age gender smile pose w /\
      forall vc vp v,
        lookup (heap w) (latent_code (self w)) = Some vc ->
        lookup (heap w) (pose_boundary (self w)) = Some vp ->
        np_add vc (np_multiply vp smile) = Some v ->
        let w' := World (rcons (rcons (heap w) (np_multiply vp smile)) v)
                        (rebound (self w) (size (heap w)).+1) in
        [/\ (run age gender pose smile w).2 = w',
            lookup (heap w') (latent_code (self w')) = Some v
          & forall img rest, easy_synthesize v = img :: rest ->
              (run age gender pose smile w).1
              = Return (Image img, (size (heap w)).+1)]].
Proof.
move=> ns run; split.
- by rewrite /run /modify (negbTE ns) !andbF.
- by move=> other; exact: blind_modify.
move=> za zg zp.
have runE : run age gender pose smile w
      = (change_pose np_multiply np_add smile ;;
         output <- synthesize easy_synthesize ;;
         first <- getitem0 output ;;
         code <- getattr latent_code ;;
         ret (Image first, code)) w.
  by rewrite /run /modify za zg zp (negbTE ns).
split; first by rewrite runE /run /modify za zg zp (negbTE ns).
move=> vc vp v hc hp hv w'.
have hv' : lookup (heap w') (latent_code (self w')) = Some v.
  by rewrite /w' /= -(size_rcons (heap w) (np_multiply vp smile)) lookup_rcons_last.
have finE : run age gender pose smile w
            = (if easy_synthesize v is img :: _
               then Return (Image img, (size (heap w)).+1)
               else Raise IndexError, w').
  rewrite runE /bind.
  rewrite [change_pose _ _ _ _](edit_run (field:=pose_boundary) hc hp hv) -/w'.
  by rewrite (synthesize_run _ hv'); case: (easy_synthesize v).
by rewrite finE; split=> // img rest ->.
Qed.

Lemma smile_edit_moves_pose_witness :
  (modify nat_is_zero nat_multiply nat_add nat_synthesize 0%N 0%N 0%N 3%N
          studio).1
  = Return (Image [:: 1; 32]%N, 6%N).
Proof.
have [_ _ alone] :=
  @smile_edit_moves_pose _ _ _ nat_is_zero nat_multiply nat_add
    nat_synthesize studio 0%N 0%N 0%N 3%N isT.
have [_ moved] := alone isT isT isT.
have [_ _ first] := moved [:: 1; 2]%N [:: 0; 10]%N [:: 1; 32]%N erefl erefl erefl.
exact: (first [:: 1; 32]%N [::] erefl).
Defined.

(** C9.  The two shapes of what [modify] returns.  With all four offsets
    zero it returns the whole output of [synthesize] with the latent
    code, and the object and the store are as before.  With some offset
    non-zero, whenever it returns it returns one image, the first of what
    [synthesize] gives for the latent code it leaves; and it does return
    when the attributes are bound, the operands always broadcast and the
    output is never empty. *)
Theorem modify_result_shape (ndarray scalar image : Type)
    (is_zero : scalar -> bool)
    (np_multiply : ndarray -> scalar -> ndarray)
    (np_add : ndarray -> ndarray -> option ndarray)
    (easy_synthesize : ndarray -> seq image)
    (w : world ndarray) (age gender pose smile : scalar) :
  let run := modify is_zero np_multiply np_add easy_synthesize in
  let all_zero := [&& is_zero age, is_zero pose, is_zero smile
                    & is_zero gender] in
  [/\ all_zero ->
      forall v, lookup (heap w) (latent_code (self w)) = Some v ->
        run age gender pose smile w
        = (Return (Images (easy_synthesize v), latent_code (self w)), w),
      ~~ all_zero ->
      forall r w', run age gender pose smile w = (Return r, w') ->
        exists img rest v,
          [/\ r = (Image img, latent_code (self w')),
              lookup (heap w') (latent_code (self w')) = Some v
            & easy_synthesize v = img :: rest]
    & ~~ all_zero -> bound w ->
      (forall a c, isSome (np_add a c)) ->
      (forall v, ~~ nilp (easy_synthesize v)) ->
      exists r w', run age gender pose smile w = (Return r, w')].
Proof.
move=> run all_zero; split.
- move=> az v hv; rewrite /run /modify -/all_zero az /bind.
  by rewrite (synthesize_run _ hv).
- move=> nz r w'; rewrite /run /modify -/all_zero (negbTE nz) => go.
  have [u1 [w1 [_ {}go]]] := bind_Return go.
  have [u2 [w2 [_ {}go]]] := bind_Return go.
  have [u3 [w3 [_ {}go]]] := bind_Return go.
  have [u4 [w4 [_ {}go]]] := bind_Return go.
  have [out [w5 [sy {}go]]] := bind_Return go.
  have [w5E [v hv outE]] := synthesize_Return sy.
  have [first [w6 [gi {}go]]] := bind_Return go.
  case: out outE gi {sy} => [|img rest] // outE [fE w6E].
  move: go; rewrite -fE -w6E w5E /bind /= => -[<- <-].
  by exists img, rest, v.
- move=> nz bw total nonempty; rewrite /run /modify -/all_zero (negbTE nz).
  have step (field : FaceModifier -> loc) c x w0 :
      bound w0 -> (field (self w0) < size (heap w0))%N ->
      exists2 w1,
        when c (bind (getattr field) (fun b =>
                bind (modify_latent_code np_multiply np_add b x) (fun code =>
                set_latent_code code))) w0 = (Return tt, w1) & bound w1.
    move=> bw0 lt0; case: c => /=; last by exists w0.
    have [w1 -> [bw1 _]] := edit_total np_multiply (field:=field) x total bw0 lt0.
    by exists w1.
  have lt_of (w0 : world ndarray) : bound w0 ->
      [/\ (latent_code (self w0) < size (heap w0))%N,
          (age_boundary (self w0) < size (heap w0))%N,
          (pose_boundary (self w0) < size (heap w0))%N
        & (gender_boundary (self w0) < size (heap w0))%N].
    by rewrite /bound /= => /and5P [].
  have [_ la _ _]  := lt_of _ bw.
  have [w1 r1 bw1] := step age_boundary (~~ is_zero age) age w bw la.
  have [_ _ lp1 _]  := lt_of _ bw1.
  have [w2 r2 bw2] :=
    step pose_boundary (~~ is_zero pose) pose w1 bw1 lp1.
  have [_ _ lp2 _]  := lt_of _ bw2.
  have [w3 r3 bw3] :=
    step pose_boundary (~~ is_zero smile) smile w2 bw2 lp2.
  have [_ _ _ lg3]  := lt_of _ bw3.
  have [w4 r4 bw4] :=
    step gender_boundary (~~ is_zero gender) gender w3 bw3 lg3.
  have [lc4 _ _ _]  := lt_of _ bw4.
  have [v hv] := bound_lookup lc4.
  rewrite /bind [when _ (change_age _ _ _) _]r1 [when _ (change_pose _ _ _) _]r2.
  rewrite [when _ (change_pose _ _ _) _]r3 [when _ (change_gender _ _ _) _]r4.
  rewrite (synthesize_run _ hv).
  case: (easy_synthesize v) (nonempty v) => [|img rest] // _.
  by eexists; eexists.
Qed.

Lemma modify_result_shape_witness :
  modify nat_is_zero nat_multiply nat_add nat_synthesize 0%N 0%N 0%N 0%N
         studio
  = (Return (Images [:: [:: 1; 2]%N], 0%N), studio) /\
  exists r w',
    modify nat_is_zero nat_multiply nat_add nat_synthesize 2%N 0%N 0%N 3%N
           studio = (Return r, w').
Proof.
have [same _ _] :=
  @modify_result_shape _ _ _ nat_is_zero nat_multiply nat_add nat_synthesize
    studio 0%N 0%N 0%N 0%N.
have [_ _ returns] :=
  @modify_result_shape _ _ _ nat_is_zero nat_multiply nat_add nat_synthesize
    studio 2%N 0%N 0%N 3%N.
split; first exact: (same isT [:: 1; 2]%N erefl).
exact: (returns isT isT (fun _ _ => isT) (fun _ => isT)).
Defined.

(* ===================================================================== *)
(** * The driver: boundary files                                          *)
(* ===================================================================== *)

Section EditDriverTheory.

Variables (path name space ndarray image scalar generator : Type).
Variable files : path -> option ndarray.
Variable gan_type_of : name -> gan_type.
Variable PGGANGenerator : name -> generator.
Variable StyleGANGenerator : name -> generator.
Variable preprocess : generator -> ndarray -> option space -> ndarray.
Variable easy_sample : generator -> Z -> option space -> ndarray.
Variable get_batch_inputs : generator -> ndarray -> seq ndarray.
Variable easy_synthesize : generator -> ndarray -> option space -> seq image.
Variable shape0 : ndarray -> nat.
Variable slice1 : ndarray -> nat -> ndarray.
Variable project_boundary : ndarray -> seq ndarray -> outcome ndarray.
Variable linear_interpolate :
  ndarray -> ndarray -> scalar -> scalar -> Z -> outcome ndarray.

Let args : Type := arguments path name space scalar.
Let log : Type := trace ndarray image.

Lemma prepare_boundary_missing (a : args) (t : log) :
  files (boundary_path a) = None ->
  prepare_boundary files project_boundary a t
  = (Raise ValueError, rcons t (Log _ _ PreparingBoundary)).
Proof. by move=> miss; rewrite /prepare_boundary /bind /emit /isfile miss. Qed.

Lemma prepare_boundary_found (a : args) (t : log) b :
  files (boundary_path a) = Some b ->
  prepare_boundary files project_boundary a t
  = (project_boundary b (existing_conditionals files a),
     t ++ Log _ _ PreparingBoundary :: conditional_messages image files a).
Proof.
move=> found.
rewrite /prepare_boundary /bind /emit /isfile /np_load found /=.
rewrite /existing_conditionals /conditional_messages /isfile /=.
case: (files (conditional_boundary1_path a)) => [c1|];
  case: (files (conditional_boundary2_path a)) => [c2|] /=;
  by rewrite /lift -?cats1 -?catA.
Qed.

(** C10.  Missing boundary files.  When the primary boundary path is not
    an existing file the driver raises [ValueError] having only logged
    two messages: nothing was projected, saved or written.  A conditional
    boundary path that is not an existing file is passed over: the
    boundary is projected with the conditionals whose files exist, and
    the log has no message about the others. *)
Theorem boundary_files (a : args) (t : log) :
  [/\ files (boundary_path a) = None ->
      gan_type_of (model_name a) <> OtherGan ->
      let: (r, t') :=
        main files gan_type_of PGGANGenerator StyleGANGenerator preprocess
             easy_sample get_batch_inputs easy_synthesize shape0 slice1
             project_boundary linear_interpolate a t in
      [/\ r = Raise ValueError,
          t' = t ++ [:: Log _ _ InitializingGenerator;
                        Log _ _ PreparingBoundary]
        & has (@writes _ _) (drop (size t) t') = false],
      files (boundary_path a) = None ->
      prepare_boundary files project_boundary a t
      = (Raise ValueError, rcons t (Log _ _ PreparingBoundary))
    & forall b, files (boundary_path a) = Some b ->
      prepare_boundary files project_boundary a t
      = (project_boundary b (pmap files [:: conditional_boundary1_path a;
                                           conditional_boundary2_path a]),
         t ++ Log _ _ PreparingBoundary :: conditional_messages image files a)].
Proof.
split; [|exact: prepare_boundary_missing|exact: prepare_boundary_found].
move=> miss known; rewrite /main /bind /emit.
case: (gan_type_of _) known => // _ /=;
  by rewrite prepare_boundary_missing // -!cats1 -catA drop_size_cat.
Qed.

End EditDriverTheory.

Lemma boundary_files_witness :
  [/\ (demo_main (command_line 0 0 0) [::]).1 = Raise ValueError,
      (demo_main (command_line 0 0 0) [::]).2
      = [:: Log _ _ InitializingGenerator; Log _ _ PreparingBoundary]
    & prepare_boundary disk add_up (command_line 1 0 1) [::]
      = (Return 14%N,
         [:: Log nat nat PreparingBoundary;
             Log _ _ PreparingConditionalBoundary2])].
Proof.
have [missing _ _] :=
  @boundary_files nat unit unit nat nat nat unit disk (fun _ => Stylegan)
    (fun _ => tt) (fun _ => tt) (fun _ v _ => v) (fun _ _ _ => 0%N)
    (fun _ v => [:: v]) (fun _ v _ => [:: v]) (fun _ => 1%N) (fun v _ => v)
    add_up (fun c _ _ _ _ => Return c) (command_line 0 0 0) [::].
have [_ _ found] :=
  @boundary_files nat unit unit nat nat nat unit disk (fun _ => Stylegan)
    (fun _ => tt) (fun _ => tt) (fun _ v _ => v) (fun _ _ _ => 0%N)
    (fun _ v => [:: v]) (fun _ v _ => [:: v]) (fun _ => 1%N) (fun v _ => v)
    add_up (fun c _ _ _ _ => Return c) (command_line 1 0 1) [::].
have supported : Stylegan <> OtherGan by [].
have [rE tE _] := missing erefl supported.
by split; [exact: rE | exact: tE | exact: (found 7%N erefl)].
Defined.

(* ===================================================================== *)
(** * FaceModifier: the edits of one call, and of several                 *)
(* ===================================================================== *)

Section FaceModifyRuns.

Variables (ndarray scalar image : Type).
Variable is_zero : scalar -> bool.
Variable np_multiply : ndarray -> scalar -> ndarray.
Variable np_add : ndarray -> ndarray -> option ndarray.
Variable easy_synthesize : ndarray -> seq image.

Implicit Types (w : world ndarray) (x : scalar) (h : store ndarray).
Implicit Types (es : seq (scalar * loc)) (c v : ndarray).
Implicit Types (age gender pose smile : scalar).

Local Notation progress := (progress is_zero np_multiply np_add).
Local Notation completed := (completed is_zero np_multiply np_add).
Local Notation edit field x :=
  (bind (getattr field) (fun b =>
   bind (modify_latent_code np_multiply np_add b x) (fun code =>
   set_latent_code code))).

Lemma bound_boundary w a : bound w -> (boundary_of a (self w) < size (heap w))%N.
Proof. by rewrite /bound /= andbT => /and5P [lc la lp lg ls]; case: a. Qed.

Lemma bound_latent w : bound w -> (latent_code (self w) < size (heap w))%N.
Proof. by rewrite /bound /= => /andP []. Qed.

Lemma bound_grow w h1 (s1 : FaceModifier) :
  bound w -> (size (heap w) <= size h1)%N ->
  (forall a, boundary_of a s1 = boundary_of a (self w)) ->
  (latent_code s1 < size h1)%N -> bound (World h1 s1).
Proof.
move=> bw le same lt; rewrite /bound /= lt andbT /=.
move: (same AgeBoundary) (same PoseBoundary) (same GenderBoundary)
      (same SmileBoundary) => /= -> -> -> ->.
rewrite (leq_trans (bound_boundary AgeBoundary bw) le).
rewrite (leq_trans (bound_boundary PoseBoundary bw) le).
rewrite (leq_trans (bound_boundary GenderBoundary bw) le).
by rewrite (leq_trans (bound_boundary SmileBoundary bw) le).
Qed.

Lemma progress_extends h h1 c es :
  extends h h1 -> all (fun e => e.2 < size h)%N es ->
  progress h1 c es = progress h c es /\ completed h1 c es = completed h c es.
Proof.
move=> ext; elim: es c => [|[x b] es IH] c //= /andP [ltb /IH {}IH].
case: (is_zero x) => //.
have [vb hb] : exists vb, lookup h b = Some vb.
  by case: h ltb {ext IH} => [|v0 h] // lt; exists (nth v0 (v0 :: h) b); exact: lookup_nth.
rewrite hb (lookup_extends ext hb); case: np_add => [v|] //.
by have [-> ->] := IH v.
Qed.

(** One branch that does not broadcast: the scaled boundary was made,
    the object is as it was. *)
Lemma edit_stuck (field : FaceModifier -> loc) x w vc vb :
  lookup (heap w) (latent_code (self w)) = Some vc ->
  lookup (heap w) (field (self w)) = Some vb ->
  np_add vc (np_multiply vb x) = None ->
  edit field x w
  = (Raise ValueError, World (rcons (heap w) (np_multiply vb x)) (self w)).
Proof.
move=> hc hb hv.
rewrite /bind /getattr /modify_latent_code /bind /getattr /on_heap /=.
rewrite /multiply /bind /load hb /= /add /bind /load /=.
by rewrite (lookup_extends (extends_rcons _ _) hc) lookup_rcons_last hv.
Qed.

(** The branches of [modify], run one after the other and followed by
    [k]: they stop where [progress] stops, and leave the object holding
    the code [progress] reaches. *)
Lemma chain_run A (k : py (world ndarray) A) (fs : seq (scalar * attribute))
    w c :
  bound w -> lookup (heap w) (latent_code (self w)) = Some c ->
  let es := [seq (fx.1, boundary_of fx.2 (self w)) | fx <- fs] in
  exists w1,
    [/\ foldr (fun fx k' => bind (when (~~ is_zero fx.1)
                                       (edit (boundary_of fx.2) fx.1))
                                 (fun _ => k')) k fs w
        = (if (progress (heap w) c es).2 is Some e then (Raise e, w1)
           else k w1),
        extends (heap w) (heap w1) /\ bound w1,
        lookup (heap w1) (latent_code (self w1))
        = Some (progress (heap w) c es).1,
        forall a, boundary_of a (self w1) = boundary_of a (self w)
      & size (heap w1)
        = (size (heap w) + ((completed (heap w) c es).*2
                            + isSome (progress (heap w) c es).2))%N /\
        latent_code (self w1)
        = if completed (heap w) c es is n.+1
          then (size (heap w) + n.*2).+1 else latent_code (self w)].
Proof.
elim: fs w c => [|[x a] fs IH] w c bw hc /=.
  by exists w; split=> //; [split=> //; exact: extends_refl | rewrite !addn0].
case zx: (is_zero x) => /=; first exact: IH.
have [vb hb] := bound_lookup (bound_boundary a bw).
rewrite hb; case hv: (np_add c (np_multiply vb x)) => [v|] /=; last first.
  exists (World (rcons (heap w) (np_multiply vb x)) (self w)).
  rewrite {1}/bind (edit_stuck hc hb hv) /=; split=> //.
  - split; first exact: extends_rcons.
    apply: (bound_grow bw) => //=; rewrite size_rcons //.
    by rewrite ltnS; apply: ltnW; exact: bound_latent.
  - exact: (lookup_extends (extends_rcons _ _) hc).
  - by rewrite size_rcons double0 add0n addn1.
pose w' := World (rcons (rcons (heap w) (np_multiply vb x)) v)
                 (rebound (self w) (size (heap w)).+1).
have ext : extends (heap w) (heap w').
  exact: extends_trans (extends_rcons _ _) (extends_rcons _ _).
have bw' : bound w'.
  apply: (bound_grow bw) => /=.
  - by rewrite !size_rcons !leqW.
  - by case.
  - by rewrite !size_rcons.
have hc' : lookup (heap w') (latent_code (self w')) = Some v.
  by rewrite /w' /= -(size_rcons (heap w) (np_multiply vb x)) lookup_rcons_last.
have same a' : boundary_of a' (self w') = boundary_of a' (self w) by case: a'.
have [w1 [run [ext1 bw1] hc1 same1 [sz1 lc1]]] := IH w' v bw' hc'.
have valid : all (fun e : scalar * loc => e.2 < size (heap w))%N
                 [seq (fx.1, boundary_of fx.2 (self w)) | fx <- fs].
  by rewrite all_map; elim: (fs) => //= fx fs' ->; rewrite andbT bound_boundary.
have esE : [seq (fx.1, boundary_of fx.2 (self w')) | fx <- fs]
           = [seq (fx.1, boundary_of fx.2 (self w)) | fx <- fs].
  by apply: eq_map => fx; rewrite same.
have [pE cE] := progress_extends v ext valid.
exists w1; rewrite {1}/bind (edit_run (field:=boundary_of a) hc hb hv) -/w' /=.
rewrite esE pE cE in run hc1 sz1 lc1; split=> //.
- by split=> //; exact: extends_trans ext ext1.
- split; first by rewrite sz1 /= !size_rcons doubleS !addSn !addnS.
  rewrite lc1 /= !size_rcons; case: completed => [|n].
    by rewrite double0 addn0.
  by rewrite doubleS !addnS !addSn.
Qed.

Lemma progress_bound w c (fs : seq (scalar * attribute)) :
  bound w ->
  (progress (heap w) c
     [seq (fx.1, boundary_of fx.2 (self w)) | fx <- fs]).2
  <> Some AttributeError.
Proof.
move=> bw; elim: fs c => [|[x a] fs IH] c //=.
case: (is_zero x) => //.
have [vb ->] := bound_lookup (bound_boundary a bw).
by case: np_add.
Qed.

(** [modify] with some offset non-zero: where it stops, what it returns
    and what it leaves. *)
Lemma modify_run w age gender pose smile c :
  ~~ [&& is_zero age, is_zero pose, is_zero smile & is_zero gender] ->
  bound w -> lookup (heap w) (latent_code (self w)) = Some c ->
  let es := branches (self w) age gender pose smile in
  exists w1,
    [/\ modify is_zero np_multiply np_add easy_synthesize
               age gender pose smile w
        = (match (progress (heap w) c es).2 with
           | Some e => Raise e
           | None =>
               if easy_synthesize (progress (heap w) c es).1 is img :: _
               then Return (Image img, latent_code (self w1))
               else Raise IndexError
           end, w1),
        extends (heap w) (heap w1) /\ bound w1,
        lookup (heap w1) (latent_code (self w1))
        = Some (progress (heap w) c es).1,
        forall a, boundary_of a (self w1) = boundary_of a (self w)
      & size (heap w1)
        = (size (heap w) + ((completed (heap w) c es).*2
                            + isSome (progress (heap w) c es).2))%N /\
        latent_code (self w1)
        = if completed (heap w) c es is n.+1
          then (size (heap w) + n.*2).+1 else latent_code (self w)].
Proof.
move=> nz bw hc es.
pose k : py (world ndarray) (picture image * loc) :=
  (output <- synthesize easy_synthesize ;;
   first <- getitem0 output ;;
   code <- getattr latent_code ;;
   ret (Image first, code)).
have [w1 [run bext hc1 same szlc]] :=
  chain_run k [:: (age, AgeBoundary); (pose, PoseBoundary);
                  (smile, PoseBoundary); (gender, GenderBoundary)] bw hc.
exists w1; split=> //.
have -> : modify is_zero np_multiply np_add easy_synthesize
            age gender pose smile w
          = foldr (fun fx k' => bind (when (~~ is_zero fx.1)
                                        (edit (boundary_of fx.2) fx.1))
                                     (fun _ => k')) k
              [:: (age, AgeBoundary); (pose, PoseBoundary);
                  (smile, PoseBoundary); (gender, GenderBoundary)] w.
  by rewrite /modify (negbTE nz).
rewrite run -/es; case: (progress _ _ _).2 => [e|] //.
rewrite /k /bind (synthesize_run _ hc1).
by case: (easy_synthesize _).
Qed.

Lemma branchesE (s : FaceModifier) age gender pose smile :
  branches s age gender pose smile
  = [seq (fx.1, boundary_of fx.2 s)
    | fx <- [:: (age, AgeBoundary); (pose, PoseBoundary);
                (smile, PoseBoundary); (gender, GenderBoundary)]].
Proof. by []. Qed.

Lemma branches_valid w age gender pose smile :
  bound w ->
  all (fun e : scalar * loc => e.2 < size (heap w))%N
      (branches (self w) age gender pose smile).
Proof.
move=> bw; rewrite /branches /= andbT.
by rewrite (bound_boundary AgeBoundary bw) (bound_boundary PoseBoundary bw)
           (bound_boundary GenderBoundary bw).
Qed.

Lemma progress_cat h c es1 es2 :
  progress h c (es1 ++ es2)
  = if (progress h c es1).2 is Some _ then progress h c es1
    else progress h (progress h c es1).1 es2.
Proof.
elim: es1 c => [|[x b] es1 IH] c //=.
case: (is_zero x) => //; case: lookup => [vb|] //.
by case: np_add.
Qed.

Lemma completed_count h c es :
  (progress h c es).2 = None ->
  completed h c es = count (fun e : scalar * loc => ~~ is_zero e.1) es.
Proof.
elim: es c => [|[x b] es IH] c //=.
case: (is_zero x) => //=; first by rewrite add0n; exact: IH.
case: lookup => [vb|] //; case: np_add => [v|] // /IH ->.
by rewrite add1n.
Qed.

(** Whatever the offsets and the outcome, [modify] leaves the object
    holding the code [progress] reaches. *)
Lemma modify_content w age gender pose smile c :
  bound w -> lookup (heap w) (latent_code (self w)) = Some c ->
  let es := branches (self w) age gender pose smile in
  let: (r, w1) := modify is_zero np_multiply np_add easy_synthesize
                         age gender pose smile w in
  [/\ lookup (heap w1) (latent_code (self w1))
      = Some (progress (heap w) c es).1,
      extends (heap w) (heap w1) /\ bound w1,
      forall a, boundary_of a (self w1) = boundary_of a (self w)
    & (exists res, r = Return res) -> (progress (heap w) c es).2 = None].
Proof.
move=> bw hc es.
case az: [&& is_zero age, is_zero pose, is_zero smile & is_zero gender].
  have pE : progress (heap w) c es = (c, None).
    by case/and4P: az => za zp zs zg; rewrite /es /= za zp zs zg.
  rewrite /modify az /bind (synthesize_run _ hc) pE /=.
  by split=> //; split=> //; exact: extends_refl.
have [w1 [-> bext hc1 same _]] := modify_run (negbT az) bw hc.
split=> //; rewrite -/es; case: (progress _ _ _).2 => [e|] //.
by case=> res.
Qed.

Lemma completed_pos w age gender pose smile c :
  ~~ [&& is_zero age, is_zero pose, is_zero smile & is_zero gender] ->
  (progress (heap w) c (branches (self w) age gender pose smile)).2 = None ->
  (0 < completed (heap w) c (branches (self w) age gender pose smile))%N.
Proof.
move=> nz /completed_count ->; rewrite /= !addn0; move: nz.
rewrite !negb_and.
by case: (is_zero age); case: (is_zero pose); case: (is_zero smile);
   case: (is_zero gender).
Qed.

(** X1.  What a call of [modify] with some offset non-zero computes.  On
    an object whose attributes are bound, when every addition
    broadcasts, the object is left holding the old code moved, in this
    order, by the age offset along the age boundary, by the pose offset
    and then by the smile offset along the pose boundary, and by the
    gender offset along the gender boundary, zero offsets passed over;
    that code is a new array, the picture returned is the first one
    synthesised from it, and the call made two arrays for each non-zero
    offset. *)
Theorem modify_moves_code w age gender pose smile c :
  ~~ [&& is_zero age, is_zero pose, is_zero smile & is_zero gender] ->
  bound w -> lookup (heap w) (latent_code (self w)) = Some c ->
  let es := branches (self w) age gender pose smile in
  (progress (heap w) c es).2 = None ->
  exists w1,
    [/\ modify is_zero np_multiply np_add easy_synthesize
               age gender pose smile w
        = (if easy_synthesize (progress (heap w) c es).1 is img :: _
           then Return (Image img, latent_code (self w1))
           else Raise IndexError, w1),
        lookup (heap w1) (latent_code (self w1))
        = Some (progress (heap w) c es).1,
        fresh (heap w) (heap w1) (latent_code (self w1))
      & size (heap w1)
        = (size (heap w)
           + (count (fun e : scalar * loc => ~~ is_zero e.1) es).*2)%N].
Proof.
move=> nz bw hc es stop.
have [w1 [run _ hc1 _ [sz lc]]] := modify_run (negbT (negbTE nz)) bw hc.
have cE := completed_count stop.
have pos := completed_pos nz stop.
exists w1; rewrite run -/es stop; split=> //.
- rewrite /fresh lc sz -/es stop addn0.
  case: completed pos => [|n] // _.
  by rewrite doubleS !addnS ltnS leqnn -addnS leq_addr.
- by rewrite sz -/es stop addn0 cE.
Qed.

(** X2.  [modify] is not undone by a failure.  When an addition cannot
    broadcast the call raises [ValueError], and the object is left
    holding the code moved by the branches that ran before: the code
    [progress] had reached.  The store has two arrays more for each of
    those branches, and the scaled boundary of the one that failed. *)
Theorem modify_stops_midway w age gender pose smile c :
  bound w -> lookup (heap w) (latent_code (self w)) = Some c ->
  let es := branches (self w) age gender pose smile in
  (progress (heap w) c es).2 = Some ValueError ->
  exists w1,
    [/\ modify is_zero np_multiply np_add easy_synthesize
               age gender pose smile w = (Raise ValueError, w1),
        lookup (heap w1) (latent_code (self w1))
        = Some (progress (heap w) c es).1,
        size (heap w1)
        = (size (heap w) + (completed (heap w) c es).*2).+1
      & (0 < completed (heap w) c es)%N ->
        fresh (heap w) (heap w1) (latent_code (self w1))].
Proof.
move=> bw hc es stop.
have nz : ~~ [&& is_zero age, is_zero pose, is_zero smile & is_zero gender].
  apply/negP => /and4P [za zp zs zg].
  by move: stop; rewrite /es /= za zp zs zg.
have [w1 [run _ hc1 _ [sz lc]]] := modify_run nz bw hc.
exists w1; rewrite run -/es stop; split=> //.
- by rewrite sz -/es stop addn1 addnS.
- rewrite /fresh lc sz -/es stop; case: completed => [|n] // _.
  rewrite doubleS /=; apply/andP; split; first by rewrite leqW // leq_addr.
  by rewrite addn1 !addnS !ltnS leqnSn.
Qed.

(** X3.  Edits accumulate.  A second call of [modify] starts from the
    code the first call left, not from the code that was set: after a
    first call that returned, a second call leaves the object holding
    the code reached by the branches of the first call followed by those
    of the second. *)
Theorem modify_accumulates w c
    (age gender pose smile age' gender' pose' smile' : scalar) r1 w1 :
  bound w -> lookup (heap w) (latent_code (self w)) = Some c ->
  modify is_zero np_multiply np_add easy_synthesize
         age gender pose smile w = (Return r1, w1) ->
  let w2 := (modify is_zero np_multiply np_add easy_synthesize
                    age' gender' pose' smile' w1).2 in
  lookup (heap w2) (latent_code (self w2))
  = Some (progress (heap w) c
            (branches (self w) age gender pose smile
             ++ branches (self w) age' gender' pose' smile')).1.
Proof.
move=> bw hc run1 w2; rewrite {}/w2.
have := modify_content age gender pose smile bw hc; rewrite run1.
move=> [hc1 [ext1 bw1] same1 /(_ (ex_intro _ r1 erefl)) stop1].
have := modify_content age' gender' pose' smile' bw1 hc1.
case: (modify _ _ _ _ _ _ _ _ _) => [r2 w2] [-> _ _ _].
rewrite progress_cat stop1.
have -> : branches (self w1) age' gender' pose' smile'
          = branches (self w) age' gender' pose' smile'.
  by move: (same1 AgeBoundary) (same1 PoseBoundary) (same1 GenderBoundary);
     rewrite /branches /= => -> -> ->.
by have [-> _] := progress_extends (progress (heap w) c
     (branches (self w) age gender pose smile)).1 ext1
     (branches_valid age' gender' pose' smile' bw).
Qed.

(** X4.  An empty output.  When the generator gives no picture for the
    code, a call with all offsets zero returns the empty output, while a
    call with some offset non-zero raises [IndexError] after the object
    was given its moved code. *)
Theorem modify_empty_output w age gender pose smile c :
  bound w -> lookup (heap w) (latent_code (self w)) = Some c ->
  let es := branches (self w) age gender pose smile in
  let all_zero := [&& is_zero age, is_zero pose, is_zero smile
                    & is_zero gender] in
  (all_zero -> easy_synthesize c = [::] ->
   modify is_zero np_multiply np_add easy_synthesize age gender pose smile w
   = (Return (Images [::], latent_code (self w)), w)) /\
  (~~ all_zero -> (progress (heap w) c es).2 = None ->
   easy_synthesize (progress (heap w) c es).1 = [::] ->
   exists w1,
     [/\ modify is_zero np_multiply np_add easy_synthesize
                age gender pose smile w = (Raise IndexError, w1),
         lookup (heap w1) (latent_code (self w1))
         = Some (progress (heap w) c es).1
       & latent_code (self w1) <> latent_code (self w)]).
Proof.
move=> bw hc es all_zero; split=> [az empty|nz stop empty].
  by rewrite /modify -/all_zero az /bind (synthesize_run _ hc) empty.
have [w1 [run _ hc1 _ [_ lc]]] := modify_run nz bw hc.
exists w1; rewrite run -/es stop empty; split=> // eq_lc.
move: lc (completed_pos nz stop) (bound_latent bw); rewrite -eq_lc -/es.
case: completed => [|n] // -> _.
by rewrite ltnNge leqW // leq_addr.
Qed.

(** X5.  The code given to [set_latent_code] is shared, not copied, and
    never changed.  After [set_latent_code], a call of [modify] with all
    offsets zero hands back the very reference that was given; a call
    with some offset non-zero that returns hands back another reference,
    whose array is the given code moved by the branches; in both cases,
    and when the call raises, the given array holds what it held. *)
Theorem set_latent_code_shares w l c age gender pose smile :
  bound w -> lookup (heap w) l = Some c ->
  let all_zero := [&& is_zero age, is_zero pose, is_zero smile
                    & is_zero gender] in
  let es := branches (self w) age gender pose smile in
  let: (r, w1) :=
    bind (set_latent_code l)
         (fun _ => modify is_zero np_multiply np_add easy_synthesize
                          age gender pose smile) w in
  [/\ lookup (heap w1) l = Some c,
      all_zero -> r = Return (Images (easy_synthesize c), l) /\ w1 = World (heap w) (rebound (self w) l)
    & ~~ all_zero -> forall res, r = Return res ->
      [/\ res.2 = latent_code (self w1), res.2 <> l
         & lookup (heap w1) res.2 = Some (progress (heap w) c es).1]].
Proof.
move=> bw hl all_zero es; rewrite /bind /set_latent_code.
set w0 := World _ _.
have bw0 : bound w0.
  apply: (bound_grow bw) => //; exact: (lookup_size hl).
have hc0 : lookup (heap w0) (latent_code (self w0)) = Some c by [].
have := modify_content age gender pose smile bw0 hc0.
case az: all_zero.
  rewrite /modify -/all_zero az /bind (synthesize_run _ hc0) /= => -[_ _ _ _].
  by split.
have nz := negbT az.
have [w1 [run _ hc1 _ [_ lc]]] := modify_run nz bw0 hc0.
rewrite run => -[_ [ext1 _] _ _]; split=> // [|_ res rE].
  exact: (lookup_extends ext1 hl).
have stop : (progress (heap w0) c
               (branches (self w0) age gender pose smile)).2 = None.
  by move: rE; case: (progress _ _ _).2.
move: rE; rewrite stop; case: (easy_synthesize _) => [|img rest] // -[<-] /=.
split=> //.
move: lc (completed_pos nz stop) (lookup_size hl).
case: completed => [|n] // -> _ lt eq_l.
by move: lt; rewrite -eq_l /= ltnNge leqW // leq_addr.
Qed.

End FaceModifyRuns.

Lemma modify_moves_code_witness :
  exists w1,
    [/\ modify nat_is_zero nat_multiply nat_add nat_synthesize
               2%N 4%N 1%N 3%N studio
        = (Return (Image [:: 41; 62]%N, latent_code (self w1)), w1),
        lookup (heap w1) (latent_code (self w1)) = Some [:: 41; 62]%N,
        fresh (heap studio) (heap w1) (latent_code (self w1))
      & size (heap w1) = 13%N].
Proof.
exact: (@modify_moves_code _ _ _ nat_is_zero nat_multiply nat_add
          nat_synthesize studio 2%N 4%N 1%N 3%N [:: 1; 2]%N isT isT erefl
          erefl).
Defined.

Lemma modify_stops_midway_witness :
  exists w1,
    [/\ modify nat_is_zero nat_multiply strict_add nat_synthesize
               2%N 0%N 1%N 0%N crooked = (Raise ValueError, w1),
        lookup (heap w1) (latent_code (self w1)) = Some [:: 21; 2]%N,
        size (heap w1) = 8%N
      & (0 < 1)%N -> fresh (heap crooked) (heap w1) (latent_code (self w1))].
Proof.
exact: (@modify_stops_midway _ _ _ nat_is_zero nat_multiply strict_add
          nat_synthesize crooked 2%N 0%N 1%N 0%N [:: 1; 2]%N isT erefl erefl).
Defined.

Lemma modify_accumulates_witness :
  let w2 := (modify nat_is_zero nat_multiply nat_add nat_synthesize
                    0%N 0%N 1%N 0%N
                    (modify nat_is_zero nat_multiply nat_add nat_synthesize
                            2%N 0%N 0%N 0%N studio).2).2 in
  lookup (heap w2) (latent_code (self w2)) = Some [:: 21; 12]%N.
Proof.
exact: (@modify_accumulates _ _ _ nat_is_zero nat_multiply nat_add
          nat_synthesize studio [:: 1; 2]%N 2%N 0%N 0%N 0%N 0%N 0%N 1%N 0%N
          _ _ isT erefl erefl).
Defined.

Lemma modify_empty_output_witness :
  modify nat_is_zero nat_multiply nat_add nat_blank 0%N 0%N 0%N 0%N studio
  = (Return (Images [::], 0%N), studio) /\
  exists w1,
    [/\ modify nat_is_zero nat_multiply nat_add nat_blank
               2%N 0%N 0%N 0%N studio = (Raise IndexError, w1),
        lookup (heap w1) (latent_code (self w1)) = Some [:: 21; 2]%N
      & latent_code (self w1) <> 0%N].
Proof.
have [zero _] :=
  @modify_empty_output _ _ _ nat_is_zero nat_multiply nat_add nat_blank
    studio 0%N 0%N 0%N 0%N [:: 1; 2]%N isT erefl.
have [_ some] :=
  @modify_empty_output _ _ _ nat_is_zero nat_multiply nat_add nat_blank
    studio 2%N 0%N 0%N 0%N [:: 1; 2]%N isT erefl.
split; first exact: (zero isT erefl).
exact: (some isT erefl erefl).
Defined.

Lemma set_latent_code_shares_witness :
  let: (r, w1) :=
    bind (set_latent_code 4)
         (fun _ => modify nat_is_zero nat_multiply nat_add nat_synthesize
                          2%N 0%N 0%N 0%N) studio in
  [/\ lookup (heap w1) 4 = Some [:: 7; 7]%N,
      false -> r = Return (Images [:: [:: 7; 7]%N], 4%N)
               /\ w1 = World (heap studio) (rebound (self studio) 4)
    & true -> forall res, r = Return res ->
      [/\ res.2 = latent_code (self w1), res.2 <> 4%N
         & lookup (heap w1) res.2 = Some [:: 27; 7]%N]].
Proof.
exact: (@set_latent_code_shares _ _ _ nat_is_zero nat_multiply nat_add
          nat_synthesize studio 4%N [:: 7; 7]%N 2%N 0%N 0%N 0%N isT erefl).
Defined.

(* ===================================================================== *)
(** * The constructor of FaceModifier2                                    *)
(* ===================================================================== *)

Lemma lookup_cat (cell : Type) (h new : store cell) k :
  lookup (h ++ new) (size h + k) = lookup new k.
Proof. by rewrite /lookup map_cat nth_cat size_map ltnNge leq_addr /= addKn. Qed.


(* ===================================================================== *)
(** * The driver: what a run writes                                       *)
(* ===================================================================== *)

Section EditDriverRuns.

Variables (path name space ndarray image scalar generator : Type).
Variable files : path -> option ndarray.
Variable gan_type_of : name -> gan_type.
Variable PGGANGenerator : name -> generator.
Variable StyleGANGenerator : name -> generator.
Variable preprocess : generator -> ndarray -> option space -> ndarray.
Variable easy_sample : generator -> Z -> option space -> ndarray.
Variable get_batch_inputs : generator -> ndarray -> seq ndarray.
Variable easy_synthesize : generator -> ndarray -> option space -> seq image.
Variable shape0 : ndarray -> nat.
Variable slice1 : ndarray -> nat -> ndarray.
Variable project_boundary : ndarray -> seq ndarray -> outcome ndarray.
Variable linear_interpolate :
  ndarray -> ndarray -> scalar -> scalar -> Z -> outcome ndarray.

Let args : Type := arguments path name space scalar.
Let log : Type := trace ndarray image.

Local Notation edit_sample :=
  (edit_sample get_batch_inputs easy_synthesize slice1 linear_interpolate).
Local Notation main :=
  (main files gan_type_of PGGANGenerator StyleGANGenerator preprocess
        easy_sample get_batch_inputs easy_synthesize shape0 slice1
        project_boundary linear_interpolate).
Local Notation sample_images := (sample_images get_batch_inputs easy_synthesize).
Local Notation chosen_generator :=
  (chosen_generator gan_type_of PGGANGenerator StyleGANGenerator).
Local Notation prepared_codes := (prepared_codes files preprocess easy_sample).

Lemma images_run sample_id id (imgs : seq image) (t : log) :
  foldM (fun id img => bind (emit (ImWrite ndarray sample_id id img))
                            (fun _ => ret id.+1)) id imgs t
  = (Return (id + size imgs)%N,
     t ++ [seq ImWrite ndarray sample_id p.1 p.2
          | p <- zip (iota id (size imgs)) imgs]).
Proof.
elim: imgs id t => [|img imgs IH] id t /=; first by rewrite addn0 cats0.
by rewrite /bind /emit /= IH addSnnS -cats1 -catA.
Qed.

Lemma batches_run sample_id model kwargs id (bs : seq ndarray) (t : log) :
  let imgs := flatten [seq easy_synthesize model b kwargs | b <- bs] in
  foldM (fun id b =>
           foldM (fun id img => bind (emit (ImWrite ndarray sample_id id img))
                                     (fun _ => ret id.+1))
                 id (easy_synthesize model b kwargs)) id bs t
  = (Return (id + size imgs)%N,
     t ++ [seq ImWrite ndarray sample_id p.1 p.2
          | p <- zip (iota id (size imgs)) imgs]).
Proof.
elim: bs id t => [|b bs IH] id t /=; first by rewrite addn0 cats0.
rewrite /bind images_run IH size_cat addnA iotaD zip_cat ?size_iota //.
by rewrite map_cat catA.
Qed.

Lemma written_cat (t1 t2 : log) : written (t1 ++ t2) = written t1 ++ written t2.
Proof. by rewrite /written pmap_cat. Qed.

Lemma written_sample sample_id (imgs : seq image) :
  written (sample_writes ndarray sample_id imgs)
  = [seq (sample_id, i) | i <- iota 0 (size imgs)].
Proof.
rewrite /sample_writes /written.
elim: imgs 0%N => [|img imgs IH] i //=.
by rewrite IH.
Qed.

Lemma images_sample sample_id (imgs : seq image) :
  all (@is_image ndarray image) (sample_writes ndarray sample_id imgs).
Proof.
rewrite /sample_writes; elim: imgs 0%N => [|img imgs IH] i //=.
Qed.

(** X7.  One sample.  When the interpolation raises, nothing is written
    for the sample.  Otherwise the images of all the batches are written
    under the numbers 0, 1, ... in one sequence, the numbering going on
    from one batch to the next; only then is their number compared with
    [--steps]: when it differs the sample ends in [AssertionError] with
    its images written, and when it agrees the sample is logged as
    finished. *)
Theorem edit_sample_trace (a : args) model kwargs latent_codes boundary
    sample_id (t : log) :
  edit_sample a model kwargs latent_codes boundary sample_id t
  = match linear_interpolate (slice1 latent_codes sample_id) boundary
            (start_distance a) (end_distance a) (steps a) with
    | Raise e => (Raise e, t)
    | Return interpolations =>
        let imgs := sample_images model kwargs interpolations in
        let t1 := t ++ sample_writes ndarray sample_id imgs in
        if (Z.of_nat (size imgs) =? steps a)%Z
        then (Return tt, rcons t1 (Log _ _ (FinishedSample sample_id)))
        else (Raise AssertionError, t1)
    end.
Proof.
rewrite /edit_sample /bind /lift.
case: linear_interpolate => [interpolations|e] //.
rewrite batches_run add0n -/(sample_images _ _ _).
by case: Z.eqb.
Qed.

Lemma edit_sample_shape (a : args) model kwargs latent_codes boundary
    sample_id (t : log) :
  let: (r, t') :=
    edit_sample a model kwargs latent_codes boundary sample_id t in
  exists new k,
    [/\ t' = t ++ new, all (fun e => writes e ==> is_image e) new,
        written new = [seq (sample_id, i) | i <- iota 0 k]
      & r = Return tt ->
        Z.of_nat k = steps a /\ count (@is_image _ _) new = k].
Proof.
rewrite /edit_sample /bind /lift.
case: linear_interpolate => [interpolations|e] //; last first.
  by exists [::], 0%N; rewrite cats0.
rewrite batches_run add0n -/(sample_images _ _ _) -/(sample_writes _ _ _).
set imgs := sample_images _ _ _.
have allw : all (fun e : event ndarray image => writes e ==> is_image e)
                (sample_writes ndarray sample_id imgs).
  by apply: sub_all (images_sample sample_id imgs) => e ->; rewrite implybT.
case same: (Z.of_nat (size imgs) =? steps a)%Z => /=.
  exists (rcons (sample_writes ndarray sample_id imgs)
                (Log _ _ (FinishedSample sample_id))), (size imgs).
  rewrite /emit /= -!cats1 catA; split=> //.
  - by rewrite all_cat allw.
  - by rewrite written_cat written_sample cats0.
  - move=> _; split; first exact: (proj1 (Z.eqb_eq _ _) same).
    rewrite count_cat /= addn0.
    have := images_sample sample_id imgs; rewrite all_count => /eqP ->.
    by rewrite /sample_writes size_map size_zip size_iota minnn ?addn0.
exists (sample_writes ndarray sample_id imgs), (size imgs); split=> //.
exact: written_sample.
Qed.

Lemma samples_run (a : args) model kwargs latent_codes boundary
    (sample_ids : seq nat) (t : log) :
  let: (r, t') :=
    foldM (fun _ sample_id =>
             edit_sample a model kwargs latent_codes boundary sample_id)
          tt sample_ids t in
  exists new,
    [/\ t' = t ++ new, all (fun e => writes e ==> is_image e) new,
        all (fun p => p.1 \in sample_ids) (written new),
        uniq sample_ids -> uniq (written new)
      & r = Return tt ->
        [/\ Z.of_nat (count (@is_image _ _) new)
            = (steps a * Z.of_nat (size sample_ids))%Z,
            written new
            = allpairs pair sample_ids (iota 0 (Z.to_nat (steps a)))
          & (0 < size sample_ids)%N -> (0 <= steps a)%Z]].
Proof.
elim: sample_ids t => [|sample_id sample_ids IH] t /=.
  by exists [::]; rewrite cats0; split=> // _; split=> //; rewrite Z.mul_0_r.
have inj : injective (fun i : nat => (sample_id, i)) by move=> i j [].
rewrite /bind.
have := edit_sample_shape a model kwargs latent_codes boundary sample_id t.
case: (edit_sample _ _ _ _ _ _ _) => [[[]|e] t1] [new1 [k [-> w1 wr1 c1]]].
  have := IH (t ++ new1); case: (foldM _ _ _ _) => [r t2].
  move=> [new2 [-> w2 in2 u2 c2]]; exists (new1 ++ new2).
  rewrite catA all_cat w1 w2 written_cat all_cat; split=> //.
  - apply/andP; split.
      by rewrite wr1; apply/allP => p /mapP [i _ ->]; rewrite inE eqxx.
    by apply: sub_all in2 => p; rewrite inE => ->; rewrite orbT.
  - move=> /andP [notin us]; rewrite cat_uniq (u2 us) andbT wr1.
    rewrite (map_inj_uniq inj) iota_uniq /=.
    apply/hasPn => p in_p; apply/negP => /mapP [i _ pE].
    by move/allP: in2 => /(_ p in_p); rewrite pE (negbTE notin).
  - move=> rE; have [kE cE] := c1 erefl; have [cnt wr2 _] := c2 rE.
    have kN : Z.to_nat (steps a) = k by rewrite -kE Nat2Z.id.
    split.
    + rewrite count_cat Nat2Z.inj_add cE kE cnt.
      by rewrite ?Zpos_P_of_succ_nat ?Nat2Z.inj_succ; lia.
    + by rewrite wr1 wr2 kN.
    + by move=> _; rewrite -kE; exact: Nat2Z.is_nonneg.
exists new1; split=> //.
- by rewrite wr1; apply/allP => p /mapP [i _ ->]; rewrite inE eqxx.
- by move=> _; rewrite wr1 (map_inj_uniq inj) iota_uniq.
Qed.

Lemma main_run (a : args) (t : log) :
  main a t
  = match chosen_generator a, files (boundary_path a) with
    | None, _ =>
        (Raise NotImplementedError, rcons t (Log _ _ InitializingGenerator))
    | Some _, None =>
        (Raise ValueError,
         t ++ [:: Log _ _ InitializingGenerator; Log _ _ PreparingBoundary])
    | Some (model, kwargs), Some raw =>
        let pre := t ++ Log _ _ InitializingGenerator
                     :: Log _ _ PreparingBoundary
                     :: conditional_messages image files a in
        match project_boundary raw (existing_conditionals files a) with
        | Raise e => (Raise e, pre)
        | Return boundary =>
            let latent_codes := prepared_codes a model kwargs in
            let total_num := shape0 latent_codes in
            let: (r, t') :=
              foldM (fun _ sample_id =>
                       edit_sample a model kwargs latent_codes boundary
                                   sample_id)
                    tt (iota 0 total_num)
                    (pre ++ [:: Save _ BoundaryNpy boundary;
                                Log _ _ PreparingLatentCodes;
                                Log _ _
                                  (if isfile files (input_latent_codes_path a)
                                   then LoadLatentCodes
                                   else SampleLatentCodes);
                                Save _ LatentCodesNpy latent_codes;
                                Log _ _ (Editing total_num)]) in
            if r is Return _
            then (Return tt, rcons t' (Log _ _ (SuccessfullyEdited total_num)))
            else (r, t')
        end
    end.
Proof.
rewrite /main /chosen_generator /bind /emit.
case: (gan_type_of _) => //=.
- case ef: (files (boundary_path a)) => [raw|];
    last by rewrite prepare_boundary_missing // -!cats1 -catA.
  rewrite (prepare_boundary_found _ _ ef) -cats1 -catA /=.
  case: project_boundary => [boundary|e] //=.
  rewrite /prepared_codes /isfile /np_load.
  case: (files (input_latent_codes_path a)) => [loaded|] /=;
    rewrite -!cats1 -!catA /=;
    by case: (foldM _ _ _ _) => [[[]|e] t'].
- case ef: (files (boundary_path a)) => [raw|];
    last by rewrite prepare_boundary_missing // -!cats1 -catA.
  rewrite (prepare_boundary_found _ _ ef) -cats1 -catA /=.
  case: project_boundary => [boundary|e] //=.
  rewrite /prepared_codes /isfile /np_load.
  case: (files (input_latent_codes_path a)) => [loaded|] /=;
    rewrite -!cats1 -!catA /=;
    by case: (foldM _ _ _ _) => [[[]|e] t'].
Qed.

Lemma conditional_messages_logs (a : args) :
  all (fun e : event ndarray image => ~~ writes e)
      (conditional_messages image files a).
Proof.
rewrite /conditional_messages.
by case: isfile; case: isfile.
Qed.

Lemma filter_logs (t : log) :
  all (fun e => ~~ writes e) t -> (filter (@writes _ _) t) = [::].
Proof. by elim: t => [|e t IH] //= /andP [/negbTE -> /IH]. Qed.

Lemma written_logs (t : log) :
  all (fun e => ~~ writes e) t -> written t = [::].
Proof. by elim: t => [|[m|f v|s i img] t IH] //= /IH. Qed.

Lemma filter_images (t : log) :
  all (fun e => writes e ==> is_image e) t ->
  all (@is_image _ _) (filter (@writes _ _) t).
Proof.
elim: t => [|e t IH] //= /andP [we /IH wt].
by case: (writes e) we => //= ->.
Qed.

Lemma count_row (sample_ids ids : seq nat) sample_id :
  count (fun p : nat * nat => p.1 == sample_id) (allpairs pair sample_ids ids)
  = (count (pred1 sample_id) sample_ids * size ids)%N.
Proof.
elim: sample_ids => [|s ss IH] //=.
rewrite count_cat count_map IH mulnDl; congr (_ + _)%N.
rewrite (eq_count (a2 := fun _ => s == sample_id)) //.
by case: (s == sample_id); rewrite ?count_predT ?count_pred0 ?mul1n ?mul0n.
Qed.

Lemma count_logs (t : log) :
  all (fun e => ~~ writes e) t -> count (@is_image _ _) t = 0%N.
Proof. by elim: t => [|[m|f v|s i img] t IH] //= /IH. Qed.

(** X8.  The images of a run that returns.  When the driver returns, its
    last message reports as many samples as the latent codes have rows,
    the codes being those of the file when there is one and sampled
    ones otherwise; for each of these samples, in the order of the
    samples, the run has written exactly [--steps] images, numbered 0,
    1, ... in this order, and no other image; with a sample at all,
    [--steps] is not negative. *)
Theorem main_image_count (a : args) (t t' : log) :
  main a t = (Return tt, t') ->
  exists model kwargs front,
    let total_num := shape0 (prepared_codes a model kwargs) in
    [/\ chosen_generator a = Some (model, kwargs),
        t' = t ++ rcons front (Log _ _ (SuccessfullyEdited total_num)),
        written front
        = allpairs pair (iota 0 total_num) (iota 0 (Z.to_nat (steps a))),
        forall sample_id, (sample_id < total_num)%N ->
          Z.of_nat (count (fun p => p.1 == sample_id) (written front))
          = steps a
      & Z.of_nat (count (@is_image _ _) front)
        = (steps a * Z.of_nat total_num)%Z].
Proof.
rewrite main_run.
case cg: chosen_generator => [[model kwargs]|] //.
case: (files (boundary_path a)) => [raw|] //.
case: project_boundary => [boundary|e] //.
cbv zeta; set pre := Log _ _ InitializingGenerator :: _.
set mid := [:: Save _ _ _; _; _; _; _].
have := samples_run a model kwargs (prepared_codes a model kwargs) boundary
          (iota 0 (shape0 (prepared_codes a model kwargs)))
          ((t ++ pre) ++ mid).
rewrite [LHS]/=.
case: (foldM _ _ _ _) => [[[]|e] t1] // [new [-> _ _ _ cnt]] [<-].
have [cE wE pos] := cnt erefl.
have preE : written pre = [::].
  by rewrite /pre /= (written_logs (conditional_messages_logs a)).
exists model, kwargs, (pre ++ mid ++ new).
have frontE : written (pre ++ mid ++ new)
              = allpairs pair (iota 0 (shape0 (prepared_codes a model kwargs)))
                         (iota 0 (Z.to_nat (steps a))).
  by rewrite !written_cat preE.
split=> //.
- by rewrite -!cats1 -!catA.
- move=> sample_id lt; rewrite frontE.
  have ge0 : (0 <= steps a)%Z.
    by apply: pos; rewrite size_iota; exact: leq_ltn_trans lt.
  rewrite count_row count_uniq_mem ?iota_uniq // mem_iota add0n lt mul1n.
  by rewrite size_iota Z2Nat.id.
- rewrite !count_cat /mid /pre /= (count_logs (conditional_messages_logs a)).
  by rewrite !add0n cE size_iota.
Qed.


(** X10.  No image of a run is written over.  Whatever the outcome of
    the driver, the images it has written went to files of different
    names: no two of them have the same sample number and the same
    interpolation number. *)
Theorem main_distinct_images (a : args) (t : log) :
  let: (r, t') := main a t in
  exists2 new, t' = t ++ new & uniq (written new).
Proof.
rewrite main_run.
case: chosen_generator => [[model kwargs]|]; last first.
  by eexists; first by rewrite -cats1.
case: (files (boundary_path a)) => [raw|]; last first.
  by eexists; first by [].
have cm := written_logs (conditional_messages_logs a).
case ep: project_boundary => [boundary|e]; last first.
  by eexists; first by []; rewrite /= cm.
cbv zeta; set pre := Log _ _ InitializingGenerator :: _.
set mid := [:: Save _ _ _; _; _; _; _].
have preE : written pre = [::] by rewrite /pre /= cm.
have := samples_run a model kwargs (prepared_codes a model kwargs) boundary
          (iota 0 (shape0 (prepared_codes a model kwargs)))
          ((t ++ pre) ++ mid).
rewrite [X in let: (_, _) := X in _]/=.
case: (foldM _ _ _ _) => [[[]|e] t1] [new [-> _ _ /(_ (iota_uniq _ _)) un _]].
  exists (pre ++ mid ++ rcons new (Log _ _ (SuccessfullyEdited
            (shape0 (prepared_codes a model kwargs))))).
    by rewrite -!cats1 -!catA.
  by rewrite -cats1 !written_cat preE /= cats0.
exists (pre ++ mid ++ new); first by rewrite -!catA.
by rewrite !written_cat preE.
Qed.

(** X11.  Options without effect.  With a model of type pggan the driver
    does the same whatever [--latent_space_type] is; and when the path
    of the latent codes is an existing file it does the same whatever
    [--num] is. *)
Theorem main_unused_options (a : args) (t : log) :
  (gan_type_of (model_name a) = Pggan ->
   forall s, main (with_space s a) t = main a t) /\
  (isfile files (input_latent_codes_path a) ->
   forall n, main (with_num n a) t = main a t).
Proof.
split.
  move=> pg s; rewrite /main /prepare_boundary /edit_sample /=.
  by rewrite pg.
move=> there n; rewrite /main /prepare_boundary /edit_sample /=.
by rewrite there.
Qed.

(** X12.  A wrong number of images is found late.  When the first sample
    gives a number of images other than [--steps], the driver raises
    [AssertionError] after it has saved the boundary and the latent
    codes and written the images of that sample; no other sample is
    tried. *)
Theorem main_steps_mismatch (a : args) (t : log) model kwargs raw boundary
    interpolations :
  chosen_generator a = Some (model, kwargs) ->
  files (boundary_path a) = Some raw ->
  project_boundary raw (existing_conditionals files a) = Return boundary ->
  let latent_codes := prepared_codes a model kwargs in
  (0 < shape0 latent_codes)%N ->
  linear_interpolate (slice1 latent_codes 0) boundary
    (start_distance a) (end_distance a) (steps a) = Return interpolations ->
  let imgs := sample_images model kwargs interpolations in
  Z.of_nat (size imgs) <> steps a ->
  main a t
  = (Raise AssertionError,
     t ++ (Log _ _ InitializingGenerator :: Log _ _ PreparingBoundary
             :: conditional_messages image files a)
       ++ [:: Save _ BoundaryNpy boundary;
              Log _ _ PreparingLatentCodes;
              Log _ _ (if isfile files (input_latent_codes_path a)
                       then LoadLatentCodes else SampleLatentCodes);
              Save _ LatentCodesNpy latent_codes;
              Log _ _ (Editing (shape0 latent_codes))]
       ++ sample_writes ndarray 0 imgs).
Proof.
move=> cg ef ep latent_codes pos li imgs differ.
rewrite main_run cg ef ep; cbv zeta; rewrite -/latent_codes.
case: (shape0 latent_codes) pos => [|n] // _.
rewrite [foldM _ _ _ _]/= /bind /edit_sample /bind /lift li.
rewrite batches_run add0n -/(sample_images _ _ _) -/imgs.
rewrite -/(sample_writes ndarray 0 imgs).
case: Z.eqb_spec => // _.
by rewrite -!catA.
Qed.

End EditDriverRuns.

Lemma main_image_count_witness :
  exists model kwargs front,
    [/\ chosen_generator (fun _ : unit => Stylegan) (fun _ => tt)
          (fun _ => tt) one_step = Some (model, kwargs),
        (demo_main one_step [::]).2
        = [::] ++ rcons front (Log _ _ (SuccessfullyEdited 1)),
        written front = [:: (0%N, 0%N)],
        forall sample_id, (sample_id < 1)%N ->
          Z.of_nat (count (fun p => p.1 == sample_id) (written front)) = 1%Z
      & Z.of_nat (count (@is_image nat nat) front) = 1%Z].
Proof.
exact: (@main_image_count nat unit unit nat nat nat unit disk
          (fun _ => Stylegan) (fun _ => tt) (fun _ => tt) (fun _ v _ => v)
          (fun _ _ _ => 0%N) (fun _ v => [:: v]) (fun _ v _ => [:: v])
          (fun _ => 1%N) (fun v _ => v) add_up (fun c _ _ _ _ => Return c)
          one_step [::] _ erefl).
Defined.

Lemma main_unused_options_witness :
  (forall s, pggan_main (with_space s pggan_line) [::]
             = pggan_main pggan_line [::]) /\
  (forall n, pggan_main (with_num n pggan_line) [::]
             = pggan_main pggan_line [::]).
Proof.
have [space_free num_free] :=
  @main_unused_options nat unit bool nat nat nat unit disk
    (fun _ => Pggan) (fun _ => tt) (fun _ => tt) (fun _ v _ => v)
    (fun _ _ _ => 0%N) (fun _ v => [:: v]) (fun _ v _ => [:: v])
    (fun _ => 1%N) (fun v _ => v) add_up (fun c _ _ _ _ => Return c)
    pggan_line [::].
split; [exact: (space_free erefl) | exact: (num_free isT)].
Defined.

Lemma main_steps_mismatch_witness :
  demo_main (command_line 1 0 0) [::]
  = (Raise AssertionError,
     [:: Log _ _ InitializingGenerator; Log _ _ PreparingBoundary;
         Save _ BoundaryNpy 7%N; Log _ _ PreparingLatentCodes;
         Log _ _ SampleLatentCodes; Save _ LatentCodesNpy 0%N;
         Log _ _ (Editing 1); ImWrite _ 0 0 0%N]).
Proof.
have differ : Z.of_nat 1 <> 4%Z by [].
exact: (@main_steps_mismatch nat unit unit nat nat nat unit disk
          (fun _ => Stylegan) (fun _ => tt) (fun _ => tt) (fun _ v _ => v)
          (fun _ _ _ => 0%N) (fun _ v => [:: v]) (fun _ v _ => [:: v])
          (fun _ => 1%N) (fun v _ => v) add_up (fun c _ _ _ _ => Return c)
          (command_line 1 0 0) [::] tt (Some tt) 7%N 7%N 0%N
          erefl erefl erefl isT erefl differ).
Defined.
